(** * s3-secure-baseline: a shallow embedding of [s3_secure_baseline.py]

    The script audits and remediates S3 buckets against two controls: a
    bucket-policy statement denying plain-HTTP access, and server access
    logging to a central log bucket.  This development embeds the class
    [S3SecureBaseline] and [main] as functions over an explicit model of
    the AWS account, and proves properties of the reconciliation logic.

    Conventions of the embedding:
    - JSON values (the result of [json.loads]) are the inductive [json];
      Python's [None] is [JNull]; a Python [dict] is an insertion-ordered
      association list read with first-match lookup;
    - Python exceptions are values of [exn]; a computation that may raise
      returns [res A]; a method that talks to AWS is a function
      [world -> res A * world];
    - every boto3 request is appended to [calls]; the n-th request of a
      run fails with [faults n] when that is [Some e], and is otherwise
      served from the account state;
    - calls to [logger] are not modelled, except in [generate_report],
      which is the list of the messages it logs. *)

From Stdlib Require Import ZArith String List Bool Ascii.
From stdpp Require Import base option list gmap strings pretty.

Open Scope string_scope.
Set Warnings "-register-all".

(** ** JSON values and exceptions *)

Inductive json : Type :=
| JNull
| JBool (b : bool)
| JNum (n : Z)   (* no operation of the script looks inside a number *)
| JStr (s : string)
| JList (l : list json)
| JObj (kvs : list (string * json)).

(** The exception classes that can reach the code under study.
    [BotoCoreError] stands for the SDK's errors that are not
    [ClientError]; [KeyboardInterrupt] derives from [BaseException] only. *)
Inductive exn : Type :=
| ClientError (code : string)
| AttributeError
| TypeError
| BotoCoreError
| KeyboardInterrupt.

(** [isinstance(e, Exception)] *)
Definition is_Exception (e : exn) : bool :=
  match e with
  | KeyboardInterrupt => false
  | _ => true
  end.

Inductive res (A : Type) : Type :=
| Ret (a : A)
| Raise (e : exn).
Arguments Ret {A} a.
Arguments Raise {A} e.

#[global] Instance res_ret : MRet res := fun A a => Ret a.
#[global] Instance res_bind : MBind res := fun A B f m =>
  match m with
  | Ret a => f a
  | Raise e => Raise e
  end.

(** Python's short-circuit [and] on two conditions that may raise. *)
Definition and_then (a b : res bool) : res bool :=
  x ← a; if x : bool then b else Ret false.
Infix "&&&" := and_then (at level 40, left associativity).

(** ** Python operations on JSON values *)

Fixpoint dict_lookup (k : string) (kvs : list (string * json)) : option json :=
  match kvs with
  | [] => None
  | (k', v) :: rest => if String.eqb k k' then Some v else dict_lookup k rest
  end.

Fixpoint dict_set (k : string) (v : json) (kvs : list (string * json))
  : list (string * json) :=
  match kvs with
  | [] => [(k, v)]
  | (k', v') :: rest =>
      if String.eqb k k' then (k, v) :: rest else (k', v') :: dict_set k v rest
  end.

(** [d.get(k, dflt)]: only a dict has the method. *)
Definition py_get (d : json) (k : string) (dflt : json) : res json :=
  match d with
  | JObj kvs => Ret (default dflt (dict_lookup k kvs))
  | _ => Raise AttributeError
  end.

(** [d[k] = v] *)
Definition py_setitem (d : json) (k : string) (v : json) : res json :=
  match d with
  | JObj kvs => Ret (JObj (dict_set k v kvs))
  | _ => Raise TypeError
  end.

(** [x == s] for a string literal [s]. *)
Definition py_eq_str (x : json) (s : string) : bool :=
  match x with
  | JStr t => String.eqb t s
  | _ => false
  end.

Definition is_list (x : json) : bool :=
  match x with JList _ => true | _ => false end.

Definition is_dict (x : json) : bool :=
  match x with JObj _ => true | _ => false end.

Definition is_None (x : json) : bool :=
  match x with JNull => true | _ => false end.

(** [len(x)] *)
Definition py_len (x : json) : res nat :=
  match x with
  | JList l => Ret (length l)
  | JObj kvs => Ret (length kvs)
  | JStr s => Ret (String.length s)
  | _ => Raise TypeError
  end.

(** [iter(x)]: a list yields its items, a dict its keys, a string its
    characters (here its bytes; either way each item is a string);
    anything else is not iterable. *)
Definition py_iter (x : json) : res (list json) :=
  match x with
  | JList l => Ret l
  | JObj kvs => Ret (map (fun kv => JStr (fst kv)) kvs)
  | JStr s => Ret (map (fun c => JStr (String c EmptyString)) (list_ascii_of_string s))
  | _ => Raise TypeError
  end.

(** [any(p(x) for x in l)] *)
Fixpoint py_any (p : json -> res bool) (l : list json) : res bool :=
  match l with
  | [] => Ret false
  | x :: rest => b ← p x; if b : bool then Ret true else py_any p rest
  end.

(** ** The transport-deny statement and its recognisers *)

Definition arn (bucket_name : string) : string := "arn:aws:s3:::" ++ bucket_name.

(** [create_deny_http_statement] *)
Definition create_deny_http_statement (bucket_name : string) : json :=
  JObj [ ("Sid", JStr "DenyInsecureTransport");
         ("Effect", JStr "Deny");
         ("Principal", JStr "*");
         ("Action", JStr "s3:*");
         ("Resource", JList [ JStr (arn bucket_name); JStr (arn bucket_name ++ "/*") ]);
         ("Condition", JObj [ ("Bool", JObj [ ("aws:SecureTransport", JStr "false") ]) ]) ].

(** [stmt.get("Condition", {}).get("Bool", {}).get("aws:SecureTransport") == "false"] *)
Definition secure_transport_false (stmt : json) : res bool :=
  c ← py_get stmt "Condition" (JObj []);
  b ← py_get c "Bool" (JObj []);
  v ← py_get b "aws:SecureTransport" JNull;
  Ret (py_eq_str v "false").

Definition field_is (stmt : json) (k s : string) : res bool :=
  v ← py_get stmt k JNull; Ret (py_eq_str v s).

Definition field_isinstance (stmt : json) (k : string) (is_a : json -> bool) : res bool :=
  v ← py_get stmt k JNull; Ret (is_a v).

(** [len(stmt.get("Resource", [])) == 2] *)
Definition resource_len_2 (stmt : json) : res bool :=
  r ← py_get stmt "Resource" (JList []);
  n ← py_len r;
  Ret (Nat.eqb n 2).

(** The body of the generator handed to [any] (has_complete_deny_http). *)
Definition complete_deny_http (stmt : json) : res bool :=
  field_is stmt "Sid" "DenyInsecureTransport"
  &&& field_is stmt "Effect" "Deny"
  &&& field_is stmt "Principal" "*"
  &&& field_is stmt "Action" "s3:*"
  &&& field_isinstance stmt "Resource" is_list
  &&& resource_len_2 stmt
  &&& field_isinstance stmt "Condition" is_dict
  &&& secure_transport_false stmt.

(** [is_http_deny] of the scanning loop. *)
Definition is_http_deny (stmt : json) : res bool :=
  field_is stmt "Effect" "Deny" &&& secure_transport_false stmt.

(** [is_complete] of the scanning loop. *)
Definition is_complete (stmt : json) : res bool :=
  field_is stmt "Sid" "DenyInsecureTransport"
  &&& field_is stmt "Principal" "*"
  &&& field_is stmt "Action" "s3:*"
  &&& field_isinstance stmt "Resource" is_list
  &&& resource_len_2 stmt.

(** The [for stmt in statements] loop, threading [has_incomplete_http_deny]
    and [new_statements]. *)
Fixpoint scan_statements (stmts : list json) (has_incomplete : bool)
    (new_statements : list json) : res (bool * list json) :=
  match stmts with
  | [] => Ret (has_incomplete, new_statements)
  | stmt :: rest =>
      http_deny ← is_http_deny stmt;
      if http_deny : bool then
        complete ← is_complete stmt;
        if complete : bool
        then scan_statements rest has_incomplete (new_statements ++ [stmt])
        else scan_statements rest true new_statements
      else scan_statements rest has_incomplete (new_statements ++ [stmt])
  end.

(** What the classification part of [apply_deny_http_policy] decides:
    return early with "applied", or go on with a status and the rewritten
    document. *)
Inductive plan : Type :=
| AlreadyApplied
| Rewrite (policy_status : string) (policy : json).

(** [apply_deny_http_policy], from the result of [get_bucket_policy] down
    to the end of the three-way decision. *)
Definition reconcile (bucket_name : string) (policy : json) : res plan :=
  let policy_exists := negb (is_None policy) in
  let policy :=
    if policy_exists then policy
    else JObj [ ("Version", JStr "2012-10-17"); ("Statement", JList []) ] in
  let policy_status :=
    if policy_exists then "needs_change" else "not_applied" in
  statements ← py_get policy "Statement" (JList []);
  items ← py_iter statements;
  has_complete_deny_http ← py_any complete_deny_http items;
  scanned ← scan_statements items false [];
  let has_incomplete_http_deny := fst scanned in
  let new_statements := snd scanned in
  if has_incomplete_http_deny && has_complete_deny_http then
    policy ← py_setitem policy "Statement" (JList new_statements);
    Ret (Rewrite "needs_change" policy)
  else if has_complete_deny_http && negb has_incomplete_http_deny then
    Ret AlreadyApplied
  else
    policy ← py_setitem policy "Statement"
               (JList (new_statements ++ [create_deny_http_statement bucket_name]));
    Ret (Rewrite (if has_incomplete_http_deny then "needs_change" else policy_status)
                 policy).

(** ** The AWS account and the requests made to it *)

(** The [LoggingEnabled] element of a bucket's logging configuration. *)
Record logging_enabled : Type := {
  TargetBucket : option string;
  TargetPrefix : option string
}.

Inductive call : Type :=
| GetCallerIdentity
| HeadBucket (b : string)
| CreateBucket (b : string) (location : option string)
| ListBuckets
| GetBucketPolicy (b : string)
| PutBucketPolicy (b : string) (policy : json)
| GetBucketLogging (b : string)
| PutBucketLogging (b : string) (cfg : logging_enabled).

(** [policies] holds, per bucket, the document whose [json.dumps] text the
    service stores; [json.loads] of that text is the document again.
    Service-side refusals (missing bucket, denied permission, throttling)
    are left to [faults]. *)
Record world : Type := {
  account : string;
  region : string;
  buckets : list string;
  policies : gmap string json;
  loggings : gmap string logging_enabled;
  faults : nat -> option exn;
  calls : list call
}.

Definition log_call (c : call) (w : world) : world :=
  {| account := account w; region := region w; buckets := buckets w;
     policies := policies w; loggings := loggings w; faults := faults w;
     calls := calls w ++ [c] |}.

Definition set_buckets (bs : list string) (w : world) : world :=
  {| account := account w; region := region w; buckets := bs;
     policies := policies w; loggings := loggings w; faults := faults w;
     calls := calls w |}.

Definition set_policies (ps : gmap string json) (w : world) : world :=
  {| account := account w; region := region w; buckets := buckets w;
     policies := ps; loggings := loggings w; faults := faults w;
     calls := calls w |}.

Definition set_loggings (ls : gmap string logging_enabled) (w : world) : world :=
  {| account := account w; region := region w; buckets := buckets w;
     policies := policies w; loggings := ls; faults := faults w;
     calls := calls w |}.

(** Methods that talk to AWS: state passing with exceptions. *)
Definition M (A : Type) : Type := world -> res A * world.

#[global] Instance M_ret : MRet M := fun A a w => (Ret a, w).
#[global] Instance M_bind : MBind M := fun A B f m w =>
  match m w with
  | (Ret a, w') => f a w'
  | (Raise e, w') => (Raise e, w')
  end.

Definition lift {A} (r : res A) : M A := fun w => (r, w).

(** [try: body  except <class>: handler] *)
Definition try_except {A} (body : M A) (catches : exn -> bool)
    (handler : exn -> M A) : M A := fun w =>
  match body w with
  | (Raise e, w') => if catches e then handler e w' else (Raise e, w')
  | r => r
  end.

Definition is_ClientError (e : exn) : bool :=
  match e with ClientError _ => true | _ => false end.

(** One boto3 request: recorded, then failed by the fault schedule or
    served from the account state. *)
Definition request {A} (c : call) (serve : world -> res A * world) : M A := fun w =>
  match faults w (length (calls w)) with
  | Some e => (Raise e, log_call c w)
  | None => serve (log_call c w)
  end.

Module s3_client.

Definition head_bucket (b : string) : M unit :=
  request (HeadBucket b) (fun w =>
    if bool_decide (b ∈ buckets w) then (Ret tt, w)
    else (Raise (ClientError "404"), w)).

Definition create_bucket (b : string) (location : option string) : M unit :=
  request (CreateBucket b location) (fun w =>
    if bool_decide (b ∈ buckets w)
    then (Raise (ClientError "BucketAlreadyOwnedByYou"), w)
    else (Ret tt, set_buckets (buckets w ++ [b]) w)).

Definition list_buckets : M (list string) :=
  request ListBuckets (fun w => (Ret (buckets w), w)).

Definition get_bucket_policy (b : string) : M json :=
  request (GetBucketPolicy b) (fun w =>
    match policies w !! b with
    | Some p => (Ret p, w)
    | None => (Raise (ClientError "NoSuchBucketPolicy"), w)
    end).

Definition put_bucket_policy (b : string) (policy : json) : M unit :=
  request (PutBucketPolicy b policy) (fun w =>
    (Ret tt, set_policies (<[b := policy]> (policies w)) w)).

(** The response, reduced to its optional [LoggingEnabled] element. *)
Definition get_bucket_logging (b : string) : M (option logging_enabled) :=
  request (GetBucketLogging b) (fun w => (Ret (loggings w !! b), w)).

Definition put_bucket_logging (b : string) (cfg : logging_enabled) : M unit :=
  request (PutBucketLogging b cfg) (fun w =>
    (Ret tt, set_loggings (<[b := cfg]> (loggings w)) w)).

Definition region_name : M string := fun w => (Ret (region w), w).

End s3_client.

Module sts_client.

Definition get_caller_identity : M string :=
  request GetCallerIdentity (fun w => (Ret (account w), w)).

End sts_client.

(** ** class S3SecureBaseline *)

Record S3SecureBaseline : Type := {
  dry_run : bool;
  exclude_buckets : list string;
  show_policy : bool;
  show_logging : bool;
  http_only : bool;
  logging_only : bool;
  account_id : string
}.

Definition set_exclude_buckets (ex : list string) (self : S3SecureBaseline)
  : S3SecureBaseline :=
  {| dry_run := dry_run self; exclude_buckets := ex;
     show_policy := show_policy self; show_logging := show_logging self;
     http_only := http_only self; logging_only := logging_only self;
     account_id := account_id self |}.

(** [{"status": ..., "success": ...}] *)
Record policy_result : Type := {
  status : string;
  success : bool
}.

(** The per-bucket [results] dict of [apply_baseline_to_bucket]. *)
Record bucket_results : Type := {
  deny_http : bool;
  deny_http_status : string;
  access_logging : bool;
  logging_status : string
}.

Definition log_bucket_name (account_id : string) : string :=
  "access-logs-" ++ account_id.

Definition expected_prefix (account_id : string) : string :=
  "AWSLogs/" ++ account_id ++ "/S3/".

(** [_get_account_id]: the handler re-raises. *)
Definition _get_account_id : M string :=
  try_except sts_client.get_caller_identity is_ClientError (fun e => lift (Raise e)).

Definition log_bucket_policy (log_bucket account_id : string) : json :=
  JObj [ ("Version", JStr "2012-10-17");
         ("Statement", JList [
            JObj [ ("Sid", JStr "S3ServerAccessLogsPolicy");
                   ("Effect", JStr "Allow");
                   ("Principal", JObj [ ("Service", JStr "logging.s3.amazonaws.com") ]);
                   ("Action", JList [ JStr "s3:PutObject" ]);
                   ("Resource", JStr (arn log_bucket ++ "/*"));
                   ("Condition", JObj [ ("StringEquals",
                        JObj [ ("aws:SourceAccount", JStr account_id) ]) ]) ];
            create_deny_http_statement log_bucket ]) ].

(** [_ensure_log_bucket] *)
Definition _ensure_log_bucket (self : S3SecureBaseline) : M bool :=
  let log_bucket := log_bucket_name (account_id self) in
  try_except
    (s3_client.head_bucket log_bucket;; mret true)
    is_ClientError
    (fun e =>
       match e with
       | ClientError error_code =>
           if String.eqb error_code "404" then
             if dry_run self then mret true
             else
               try_except
                 (session_region ← s3_client.region_name;
                  (if String.eqb session_region "us-east-1"
                   then s3_client.create_bucket log_bucket None
                   else s3_client.create_bucket log_bucket (Some session_region));;
                  s3_client.put_bucket_policy log_bucket
                    (log_bucket_policy log_bucket (account_id self));;
                  mret true)
                 is_ClientError
                 (fun _ => mret false)
           else mret false
       | _ => lift (Raise e)
       end).

(** [__init__]; the AWS profile only selects credentials. *)
Definition __init__ (dry_run : bool) (exclude_buckets : option (list string))
    (show_policy show_logging http_only logging_only : bool) : M S3SecureBaseline :=
  account_id ← _get_account_id;
  let self :=
    {| dry_run := dry_run; exclude_buckets := default [] exclude_buckets;
       show_policy := show_policy; show_logging := show_logging;
       http_only := http_only; logging_only := logging_only;
       account_id := account_id |} in
  _ensure_log_bucket self;;
  mret self.

(** [get_all_buckets]: returns the names and the object, whose
    [exclude_buckets] list the method appends to. *)
Definition get_all_buckets (self : S3SecureBaseline)
  : M (list string * S3SecureBaseline) :=
  try_except
    (names ← s3_client.list_buckets;
     let log_bucket := log_bucket_name (account_id self) in
     let self :=
       if bool_decide (log_bucket ∈ exclude_buckets self) then self
       else set_exclude_buckets (exclude_buckets self ++ [log_bucket]) self in
     mret (filter (fun b => b ∉ exclude_buckets self) names, self))
    is_ClientError
    (fun _ => mret ([], self)).

(** [get_bucket_policy] *)
Definition get_bucket_policy (self : S3SecureBaseline) (bucket_name : string) : M json :=
  try_except
    (s3_client.get_bucket_policy bucket_name)
    is_ClientError
    (fun e =>
       match e with
       | ClientError code =>
           if String.eqb code "NoSuchBucketPolicy" then mret JNull
           else mret JNull
       | _ => lift (Raise e)
       end).

(** [apply_deny_http_policy] *)
Definition apply_deny_http_policy (self : S3SecureBaseline) (bucket_name : string)
  : M policy_result :=
  try_except
    (policy ← get_bucket_policy self bucket_name;
     decision ← lift (reconcile bucket_name policy);
     match decision with
     | AlreadyApplied => mret {| status := "applied"; success := true |}
     | Rewrite policy_status policy =>
         if dry_run self then
           mret {| status := policy_status; success := false |}
         else
           s3_client.put_bucket_policy bucket_name policy;;
           mret {| status := "applied"; success := true |}
     end)
    is_ClientError
    (fun _ => mret {| status := "error"; success := false |}).

Definition opt_eq_str (o : option string) (s : string) : bool :=
  String.eqb (default "" o) s.

(** [get_logging_status] *)
Definition get_logging_status (self : S3SecureBaseline) (bucket_name : string)
  : M string :=
  try_except
    (response ← s3_client.get_bucket_logging bucket_name;
     match response with
     | None => mret "disabled"
     | Some cfg =>
         if opt_eq_str (TargetBucket cfg) (log_bucket_name (account_id self))
            && opt_eq_str (TargetPrefix cfg) (expected_prefix (account_id self))
         then mret "enabled"
         else mret "enabled_other"
     end)
    is_ClientError
    (fun _ => mret "error").

Definition new_logging_config (self : S3SecureBaseline) : logging_enabled :=
  {| TargetBucket := Some (log_bucket_name (account_id self));
     TargetPrefix := Some (expected_prefix (account_id self)) |}.

(** [enable_access_logging] *)
Definition enable_access_logging (self : S3SecureBaseline) (bucket_name : string)
  : M bool :=
  try_except
    (logging_status ← get_logging_status self bucket_name;
     (if show_logging self then
        try_except (s3_client.get_bucket_logging bucket_name;; mret tt)
                   is_ClientError (fun _ => mret tt)
      else mret tt);;
     if String.eqb logging_status "enabled" then mret true
     else if String.eqb logging_status "enabled_other" then
       if dry_run self then mret true
       else
         s3_client.put_bucket_logging bucket_name (new_logging_config self);;
         mret true
     else
       if dry_run self then mret true
       else
         s3_client.put_bucket_logging bucket_name (new_logging_config self);;
         mret true)
    is_ClientError
    (fun _ => mret false).

(** [apply_baseline_to_bucket] *)
Definition apply_baseline_to_bucket (self : S3SecureBaseline) (bucket_name : string)
  : M bucket_results :=
  http ← (if negb (logging_only self) then
            policy_result ← apply_deny_http_policy self bucket_name;
            mret (success policy_result, status policy_result)
          else mret (false, "skipped"));
  logs ← (if negb (http_only self) then
            logging_status ← get_logging_status self bucket_name;
            access_logging ← enable_access_logging self bucket_name;
            if negb (dry_run self) && access_logging then
              logging_status ← get_logging_status self bucket_name;
              mret (access_logging, logging_status)
            else mret (access_logging, logging_status)
          else mret (false, "skipped"));
  mret {| deny_http := fst http; deny_http_status := snd http;
          access_logging := fst logs; logging_status := snd logs |}.

Definition error_results : bucket_results :=
  {| deny_http := false; deny_http_status := "error";
     access_logging := false; logging_status := "error" |}.

(** The [for bucket_name in buckets] loop of
    [apply_baseline_to_all_buckets]. *)
Fixpoint process_buckets (self : S3SecureBaseline) (names : list string)
    (results : gmap string bucket_results) : M (gmap string bucket_results) :=
  match names with
  | [] => mret results
  | bucket_name :: rest =>
      results ←
        try_except
          (bucket_results ← apply_baseline_to_bucket self bucket_name;
           mret (<[bucket_name := bucket_results]> results))
          is_Exception
          (fun _ => mret (<[bucket_name := error_results]> results));
      process_buckets self rest results
  end.

(** [apply_baseline_to_all_buckets] *)
Definition apply_baseline_to_all_buckets (self : S3SecureBaseline)
  : M (gmap string bucket_results * S3SecureBaseline) :=
  listed ← get_all_buckets self;
  let names := fst listed in
  let self := snd listed in
  match names with
  | [] => mret (∅, self)
  | _ =>
      results ← process_buckets self names ∅;
      mret (results, self)
  end.

(** ** main *)

Module Args.
(** The namespace returned by [parser.parse_args()]. *)
Record t : Type := {
  apply : bool;
  bucket : option string;
  profile : option string;
  exclude : option (list string);
  show_policy : bool;
  show_logging : bool;
  http_only : bool;
  logging_only : bool
}.
End Args.

(** How [main] ends: it returns after the report, with the [results] it
    reported, or leaves through [SystemExit]. *)
Inductive termination : Type :=
| Reported (results : gmap string bucket_results)
| SystemExit (code : Z).

(** Truth value of an optional string argument. *)
Definition given (o : option string) : bool :=
  match o with
  | Some s => negb (String.eqb s "")
  | None => false
  end.

(** [main], after argument parsing.  [parser.error] exits with status 2;
    [generate_report] only logs. *)
Definition main (args : Args.t) (w : world) : termination * world :=
  if Args.http_only args && Args.logging_only args then (SystemExit 2, w)
  else
    let body : M (gmap string bucket_results) :=
      let dry_run := negb (Args.apply args) in
      baseline ← __init__ dry_run (Some (default [] (Args.exclude args)))
                   (Args.show_policy args) (Args.show_logging args)
                   (Args.http_only args) (Args.logging_only args);
      if given (Args.bucket args) then
        let name := default "" (Args.bucket args) in
        bucket_results ← apply_baseline_to_bucket baseline name;
        mret {[ name := bucket_results ]}
      else
        all ← apply_baseline_to_all_buckets baseline;
        mret (fst all) in
    match body w with
    | (Ret results, w') => (Reported results, w')
    | (Raise KeyboardInterrupt, w') => (SystemExit 1, w')
    | (Raise _, w') => (SystemExit 1, w')
    end.


(** ** Further methods: status query, summary and report *)

(** [is_logging_enabled] *)
Definition is_logging_enabled (self : S3SecureBaseline) (bucket_name : string) : M bool :=
  status ← get_logging_status self bucket_name;
  mret (String.eqb status "enabled" || String.eqb status "enabled_other").

(** The [summary] dict of [generate_summary] before the loop. *)
Definition initial_summary (total : nat) : gmap string nat :=
  list_to_map
    [ ("total", total);
      ("logging_enabled", 0); ("logging_enabled_other", 0);
      ("logging_disabled", 0); ("logging_error", 0); ("logging_skipped", 0);
      ("deny_http_applied", 0); ("deny_http_needs_change", 0);
      ("deny_http_not_applied", 0); ("deny_http_error", 0);
      ("deny_http_skipped", 0) ].

(** One turn of the loop of [generate_summary]; [summary[k] += 1] is
    [alter S k]. *)
Definition count_bucket (r : bucket_results) (summary : gmap string nat)
  : gmap string nat :=
  let status := logging_status r in
  let summary :=
    if String.eqb status "enabled" then alter S "logging_enabled" summary
    else if String.eqb status "enabled_other" then alter S "logging_enabled_other" summary
    else if String.eqb status "disabled" then alter S "logging_disabled" summary
    else if String.eqb status "error" then alter S "logging_error" summary
    else if String.eqb status "skipped" then alter S "logging_skipped" summary
    else summary in
  let deny_http_status := deny_http_status r in
  if String.eqb deny_http_status "applied" then alter S "deny_http_applied" summary
  else if String.eqb deny_http_status "needs_change"
       then alter S "deny_http_needs_change" summary
  else if String.eqb deny_http_status "not_applied"
       then alter S "deny_http_not_applied" summary
  else if String.eqb deny_http_status "error" then alter S "deny_http_error" summary
  else if String.eqb deny_http_status "skipped" then alter S "deny_http_skipped" summary
  else summary.

(** [generate_summary]: the loop runs over [results.values()]. *)
Definition generate_summary (results : gmap string bucket_results) : gmap string nat :=
  foldl (fun summary r => count_bucket r summary)
        (initial_summary (size results))
        (map snd (map_to_list results)).

(** [summary[k]], for the keys the dict is built with. *)
Definition item (summary : gmap string nat) (k : string) : nat :=
  default 0 (summary !! k).

(** The format specification [:3d]. *)
Definition format_3d (n : nat) : string :=
  let digits := pretty n in
  match String.length digits with
  | 1 => "  " ++ digits
  | 2 => " " ++ digits
  | _ => digits
  end.

Definition rule : string :=
  "================================================================================".

(** The messages [generate_report] logs for one bucket. *)
Definition report_bucket (bucket_name : string) (r : bucket_results) : list string :=
  let deny_http_status := deny_http_status r in
  let deny_http_ok := String.eqb deny_http_status "applied" in
  let logging_ok := String.eqb (logging_status r) "enabled" in
  let status := if deny_http_ok && logging_ok then "✓ 成功" else "✗ 一部失敗" in
  [ bucket_name ++ ": " ++ status;
    if String.eqb deny_http_status "applied" then "  - HTTP拒否ポリシー: ✓ 適用済み"
    else if String.eqb deny_http_status "needs_change"
         then "  - HTTP拒否ポリシー: ⚠ 要設定変更"
    else if String.eqb deny_http_status "not_applied"
         then "  - HTTP拒否ポリシー: ✗ 未適用"
    else if String.eqb deny_http_status "skipped"
         then "  - HTTP拒否ポリシー: - スキップ"
    else "  - HTTP拒否ポリシー: ✗ エラー";
    let logging_status := logging_status r in
    if String.eqb logging_status "enabled" then "  - アクセスログ: ✓ 対応済み"
    else if String.eqb logging_status "enabled_other"
         then "  - アクセスログ: ⚠ 要設定変更（別の出力先）"
    else if String.eqb logging_status "disabled" then "  - アクセスログ: ✗ 未対応"
    else if String.eqb logging_status "skipped" then "  - アクセスログ: - スキップ"
    else "  - アクセスログ: ✗ エラー" ].

(** The messages of the summary part of [generate_report]. *)
Definition report_summary (summary : gmap string nat) : list string :=
  [ "対象バケット総数: " ++ pretty (item summary "total"); ""; "【アクセスログ】" ]
  ++ (if Nat.ltb 0 (item summary "logging_skipped") then
        [ "  - スキップ:       " ++ format_3d (item summary "logging_skipped")
          ++ " バケット (--http-only指定)" ]
      else
        [ "  ✓ 対応済み:       " ++ format_3d (item summary "logging_enabled")
          ++ " バケット";
          "  ⚠ 要設定変更:     " ++ format_3d (item summary "logging_enabled_other")
          ++ " バケット";
          "  ✗ 未対応:         " ++ format_3d (item summary "logging_disabled")
          ++ " バケット" ]
        ++ (if Nat.ltb 0 (item summary "logging_error") then
              [ "  ✗ エラー:         " ++ format_3d (item summary "logging_error")
                ++ " バケット" ]
            else []))
  ++ [ ""; "【HTTP拒否ポリシー】" ]
  ++ (if Nat.ltb 0 (item summary "deny_http_skipped") then
        [ "  - スキップ:       " ++ format_3d (item summary "deny_http_skipped")
          ++ " バケット (--logging-only指定)" ]
      else
        [ "  ✓ 適用済み:       " ++ format_3d (item summary "deny_http_applied")
          ++ " バケット";
          "  ⚠ 要設定変更:     " ++ format_3d (item summary "deny_http_needs_change")
          ++ " バケット";
          "  ✗ 未適用:         " ++ format_3d (item summary "deny_http_not_applied")
          ++ " バケット" ]
        ++ (if Nat.ltb 0 (item summary "deny_http_error") then
              [ "  ✗ エラー:         " ++ format_3d (item summary "deny_http_error")
                ++ " バケット" ]
            else []))
  ++ [ rule ].

(** [generate_report], as the list of messages handed to [logger.info];
    [items] is [results.items()], in the dict's order. *)
Definition generate_report (items : list (string * bucket_results)) : list string :=
  [ rule; "処理結果レポート"; rule ]
  ++ concat (map (fun kv => report_bucket (fst kv) (snd kv)) items)
  ++ [ rule; "サマリ"; rule ]
  ++ report_summary (generate_summary (list_to_map items)).

(** ** Vocabulary of the properties *)

(** The shape that the code accepts as a complete statement: [Resource]
    is any list of two items, and [Condition] may carry further keys. *)
Definition complete_shape (stmt : json) : Prop :=
  exists kvs r1 r2 ckvs bkvs,
    stmt = JObj kvs /\
    dict_lookup "Sid" kvs = Some (JStr "DenyInsecureTransport") /\
    dict_lookup "Effect" kvs = Some (JStr "Deny") /\
    dict_lookup "Principal" kvs = Some (JStr "*") /\
    dict_lookup "Action" kvs = Some (JStr "s3:*") /\
    dict_lookup "Resource" kvs = Some (JList [r1; r2]) /\
    dict_lookup "Condition" kvs = Some (JObj ckvs) /\
    dict_lookup "Bool" ckvs = Some (JObj bkvs) /\
    dict_lookup "aws:SecureTransport" bkvs = Some (JStr "false").

(** The canonical shape in the specification's words: the resource is
    exactly the bucket's two ARNs, the condition exactly
    [{Bool: {aws:SecureTransport: "false"}}]. *)
Definition spec_canonical (bucket_name : string) (stmt : json) : Prop :=
  exists kvs,
    stmt = JObj kvs /\
    dict_lookup "Sid" kvs = Some (JStr "DenyInsecureTransport") /\
    dict_lookup "Effect" kvs = Some (JStr "Deny") /\
    dict_lookup "Principal" kvs = Some (JStr "*") /\
    dict_lookup "Action" kvs = Some (JStr "s3:*") /\
    dict_lookup "Resource" kvs
      = Some (JList [ JStr (arn bucket_name); JStr (arn bucket_name ++ "/*") ]) /\
    dict_lookup "Condition" kvs
      = Some (JObj [ ("Bool", JObj [ ("aws:SecureTransport", JStr "false") ]) ]).

(** A statement the loop keeps: not a deny-on-insecure-transport
    statement, or a complete one. *)
Definition kept (stmt : json) : Prop :=
  is_http_deny stmt = Ret false \/
  (is_http_deny stmt = Ret true /\ is_complete stmt = Ret true).

(** A statement whose [Condition] chain cannot be followed: [Effect] is
    "Deny" and [Condition] is present but no dict, or its [Bool] entry is
    present but no dict. *)
Definition malformed_condition (stmt : json) : Prop :=
  exists kvs c,
    stmt = JObj kvs /\
    dict_lookup "Effect" kvs = Some (JStr "Deny") /\
    dict_lookup "Condition" kvs = Some c /\
    (is_dict c = false \/
     exists ckvs b, c = JObj ckvs /\ dict_lookup "Bool" ckvs = Some b /\ is_dict b = false).

(** Requests that change the account. *)
Definition is_write (c : call) : bool :=
  match c with
  | CreateBucket _ _ | PutBucketPolicy _ _ | PutBucketLogging _ _ => true
  | _ => false
  end.

(** A run from [w] to [w'] that issued read requests only and left the
    account as it was. *)
Definition read_only (w w' : world) : Prop :=
  buckets w' = buckets w /\
  policies w' = policies w /\
  loggings w' = loggings w /\
  faults w' = faults w /\
  exists cs, calls w' = (calls w ++ cs)%list /\ Forall (fun c => is_write c = false) cs.

(** A method that is read-only from every state, whatever it returns. *)
Definition pure_reader {A} (m : M A) : Prop :=
  forall w, read_only w (snd (m w)).

(** The record returned for a compliant or successfully rewritten bucket. *)
Definition applied : policy_result := {| status := "applied"; success := true |}.

(** The document written for a bucket without a policy. *)
Definition fresh_policy (bucket_name : string) : json :=
  JObj [ ("Version", JStr "2012-10-17");
         ("Statement", JList [create_deny_http_statement bucket_name]) ].

(** No request of the run is interrupted from the keyboard. *)
Definition uninterrupted (w : world) : Prop :=
  forall n, faults w n <> Some KeyboardInterrupt.

(** A method that, on a fault schedule without [KeyboardInterrupt], keeps
    the schedule and raises instances of [Exception] only. *)
Definition raises_Exception_only {A} (m : M A) : Prop :=
  forall w, uninterrupted w ->
    faults (snd (m w)) = faults w /\
    forall e, fst (m w) = Raise e -> is_Exception e = true.

(** [args] with [--bucket] replaced. *)
Definition with_bucket (b : option string) (args : Args.t) : Args.t :=
  {| Args.apply := Args.apply args; Args.bucket := b;
     Args.profile := Args.profile args; Args.exclude := Args.exclude args;
     Args.show_policy := Args.show_policy args;
     Args.show_logging := Args.show_logging args;
     Args.http_only := Args.http_only args;
     Args.logging_only := Args.logging_only args |}.

(** ** Sample accounts and documents *)

Definition sample_account (ps : gmap string json) (ls : gmap string logging_enabled)
    (fs : nat -> option exn) : world :=
  {| account := "123456789012"; region := "ap-northeast-1";
     buckets := ["my-bucket"; "other-bucket"; "access-logs-123456789012"];
     policies := ps; loggings := ls; faults := fs; calls := [] |}.

Definition sample_baseline (dry_run : bool) : S3SecureBaseline :=
  {| dry_run := dry_run; exclude_buckets := []; show_policy := false;
     show_logging := false; http_only := false; logging_only := false;
     account_id := "123456789012" |}.

Definition sample_logging_only (dry_run : bool) : S3SecureBaseline :=
  {| dry_run := dry_run; exclude_buckets := []; show_policy := false;
     show_logging := false; http_only := false; logging_only := true;
     account_id := "123456789012" |}.

Definition sample_args (b : option string) (ex : option (list string)) : Args.t :=
  {| Args.apply := false; Args.bucket := b; Args.profile := None;
     Args.exclude := ex; Args.show_policy := false; Args.show_logging := false;
     Args.http_only := false; Args.logging_only := false |}.

Definition conflicting_args : Args.t :=
  {| Args.apply := true; Args.bucket := None; Args.profile := None;
     Args.exclude := None; Args.show_policy := false; Args.show_logging := false;
     Args.http_only := true; Args.logging_only := true |}.

Definition no_faults : nat -> option exn := fun _ => None.

(** The n-th request fails with [e]. *)
Definition fail_at (n : nat) (e : exn) : nat -> option exn :=
  fun i => if Nat.eqb i n then Some e else None.

(** Every request from the n-th on fails with [e]. *)
Definition fail_from (n : nat) (e : exn) : nat -> option exn :=
  fun i => if Nat.leb n i then Some e else None.

(** The first [n] requests fail with [e]. *)
Definition fail_before (n : nat) (e : exn) : nat -> option exn :=
  fun i => if Nat.ltb i n then Some e else None.

Definition policy_of (statements : list json) : json :=
  JObj [ ("Version", JStr "2012-10-17"); ("Statement", JList statements) ].

Definition allow_read_statement : json :=
  JObj [ ("Sid", JStr "PublicRead");
         ("Effect", JStr "Allow");
         ("Principal", JStr "*");
         ("Action", JStr "s3:GetObject");
         ("Resource", JStr "arn:aws:s3:::my-bucket/*") ].

(** Denies insecure transport, but for one action and one resource. *)
Definition incomplete_statement : json :=
  JObj [ ("Sid", JStr "DenyInsecureTransport");
         ("Effect", JStr "Deny");
         ("Principal", JStr "*");
         ("Action", JStr "s3:GetObject");
         ("Resource", JStr "arn:aws:s3:::my-bucket/*");
         ("Condition", JObj [ ("Bool", JObj [ ("aws:SecureTransport", JStr "false") ]) ]) ].

(** Canonical in every field but the ARNs, which name another bucket. *)
Definition foreign_arn_statement : json :=
  create_deny_http_statement "other-bucket".

(** [Condition] is a string. *)
Definition malformed_statement : json :=
  JObj [ ("Sid", JStr "Legacy");
         ("Effect", JStr "Deny");
         ("Principal", JStr "*");
         ("Action", JStr "s3:*");
         ("Resource", JStr "arn:aws:s3:::my-bucket/*");
         ("Condition", JStr "aws:SecureTransport") ].

Definition foreign_logging : logging_enabled :=
  {| TargetBucket := Some "other-bucket"; TargetPrefix := Some "logs/" |}.

(** A bucket with a public-read statement and an incomplete
    transport-deny statement, and logging sent elsewhere. *)
Definition drifted_account : world :=
  sample_account {[ "my-bucket" := policy_of [allow_read_statement; incomplete_statement] ]}
                 {[ "my-bucket" := foreign_logging ]} no_faults.

(** A bucket whose policy carries a statement with a string [Condition]. *)
Definition malformed_account : world :=
  sample_account {[ "my-bucket" := policy_of [allow_read_statement; malformed_statement] ]}
                 ∅ no_faults.

(** [sample_baseline true] once [get_all_buckets] has added the log
    bucket to its exclusions. *)
Definition enumerating_baseline : S3SecureBaseline :=
  set_exclude_buckets ["access-logs-123456789012"] (sample_baseline true).

Definition not_applied_results : bucket_results :=
  {| deny_http := false; deny_http_status := "not_applied";
     access_logging := true; logging_status := "disabled" |}.

(** A statement on which the [Condition] chain can be followed: a dict
    whose [Condition], if any, is a dict whose [Bool], if any, is a dict. *)
Definition well_formed_statement (stmt : json) : Prop :=
  exists kvs,
    stmt = JObj kvs /\
    match dict_lookup "Condition" kvs with
    | None => True
    | Some (JObj ckvs) =>
        match dict_lookup "Bool" ckvs with
        | None => True
        | Some b => is_dict b = true
        end
    | Some _ => False
    end.

(** No document, or a dict whose [Statement], if any, is a list of
    well-formed statements. *)
Definition well_formed_policy (policy : json) : Prop :=
  policy = JNull \/
  exists kvs,
    policy = JObj kvs /\
    match dict_lookup "Statement" kvs with
    | None => True
    | Some (JList items) => Forall well_formed_statement items
    | Some _ => False
    end.

(** ** Vocabulary of the further properties *)

(** The statuses [apply_deny_http_policy] and [get_logging_status] give. *)
Definition deny_http_statuses : list string :=
  ["applied"; "needs_change"; "not_applied"; "error"].

Definition logging_statuses : list string :=
  ["enabled"; "enabled_other"; "disabled"; "error"].

(** Every value a method returns satisfies [P]. *)
Definition ensures {A} (P : A -> Prop) (m : M A) : Prop :=
  forall w a, fst (m w) = Ret a -> P a.

(** No [ClientError] leaves the method. *)
Definition no_ClientError {A} (m : M A) : Prop :=
  forall w e, fst (m w) = Raise e -> is_ClientError e = false.

(** The bucket a request names. *)
Definition call_bucket (c : call) : option string :=
  match c with
  | HeadBucket b | CreateBucket b _ | GetBucketPolicy b | PutBucketPolicy b _
  | GetBucketLogging b | PutBucketLogging b _ => Some b
  | GetCallerIdentity | ListBuckets => None
  end.

(** A run from [w] to [w'] whose requests all name [b] and that left the
    list of buckets and every other bucket's policy and logging
    configuration as they were. *)
Definition confined (b : string) (w w' : world) : Prop :=
  buckets w' = buckets w /\
  faults w' = faults w /\
  (forall b', b' <> b ->
     policies w' !! b' = policies w !! b' /\ loggings w' !! b' = loggings w !! b') /\
  exists cs, calls w' = (calls w ++ cs)%list /\
             Forall (fun c => call_bucket c = Some b) cs.

Definition confined_to {A} (b : string) (m : M A) : Prop :=
  forall w, confined b w (snd (m w)).

(** What a record returned by [apply_deny_http_policy] looks like: a
    known status, [success] exactly with "applied", and no "error" under
    dry-run. *)
Definition policy_result_ok (dry_run : bool) (r : policy_result) : Prop :=
  status r ∈ deny_http_statuses /\
  (success r = true <-> status r = "applied") /\
  (dry_run = true -> status r <> "error").

(** What the results of [apply_baseline_to_bucket] look like: known
    statuses, "skipped" exactly for the control switched off, and
    [deny_http] exactly with "applied". *)
Definition bucket_results_ok (self : S3SecureBaseline) (r : bucket_results) : Prop :=
  deny_http_status r ∈ "skipped" :: deny_http_statuses /\
  logging_status r ∈ "skipped" :: logging_statuses /\
  (deny_http_status r = "skipped" <-> logging_only self = true) /\
  (logging_status r = "skipped" <-> http_only self = true) /\
  (deny_http r = true <-> deny_http_status r = "applied") /\
  (http_only self = true -> access_logging r = false).

(** The read of the configuration that [enable_access_logging] makes for
    display when [show_logging] is set. *)
Definition peek_logging (self : S3SecureBaseline) (b : string) : M unit :=
  if show_logging self then
    try_except (s3_client.get_bucket_logging b;; mret tt)
               is_ClientError (fun _ => mret tt)
  else mret tt.

(** A statement the loop drops: a deny-on-insecure-transport statement
    that is not complete. *)
Definition is_incomplete_deny (stmt : json) : bool :=
  match is_http_deny stmt, is_complete stmt with
  | Ret true, Ret false => true
  | _, _ => false
  end.

(** Every failure the schedule holds is a [ClientError]. *)
Definition only_ClientErrors (w : world) : Prop :=
  forall n e, faults w n = Some e -> is_ClientError e = true.

(** A method that, on such a schedule, keeps the schedule and raises
    nothing but [ClientError]. *)
Definition raises_ClientError_only {A} (m : M A) : Prop :=
  forall w, only_ClientErrors w ->
    faults (snd (m w)) = faults w /\
    forall e, fst (m w) = Raise e -> is_ClientError e = true.

(** The [CreateBucketConfiguration] argument for a region. *)
Definition location_constraint (region : string) : option string :=
  if String.eqb region "us-east-1" then None else Some region.

(** The keys of the summary dict. *)
Definition summary_keys : list string :=
  [ "total"; "logging_enabled"; "logging_enabled_other"; "logging_disabled";
    "logging_error"; "logging_skipped"; "deny_http_applied";
    "deny_http_needs_change"; "deny_http_not_applied"; "deny_http_error";
    "deny_http_skipped" ].

Definition has_keys (summary : gmap string nat) : Prop :=
  Forall (fun k => is_Some (summary !! k)) summary_keys.

(** The values of a results dict, in the order of [map_to_list]. *)
Definition values (results : gmap string bucket_results) : list bucket_results :=
  map snd (map_to_list results).

(** ** Further sample accounts *)

(** An account in us-east-1 whose log bucket does not exist yet. *)
Definition new_account : world :=
  {| account := "123456789012"; region := "us-east-1";
     buckets := ["my-bucket"];
     policies := ∅; loggings := ∅; faults := no_faults; calls := [] |}.

(** Every request after the first is refused. *)
Definition locked_account : world :=
  sample_account ∅ ∅ (fail_from 1 (ClientError "AccessDenied")).

(** The listing, the third request of a dry run, is refused. *)
Definition unlistable_account : world :=
  sample_account ∅ ∅ (fail_at 2 (ClientError "AccessDenied")).

Definition sample_http_only (dry_run : bool) : S3SecureBaseline :=
  {| dry_run := dry_run; exclude_buckets := []; show_policy := false;
     show_logging := false; http_only := true; logging_only := false;
     account_id := "123456789012" |}.

Definition batch_results : gmap string bucket_results :=
  <["other-bucket" := not_applied_results]> (<["my-bucket" := error_results]> ∅).

(** * Properties *)

(** ** Short-circuit conjunctions and field tests *)

Section Recognisers.

Lemma and_then_true (a b : res bool) :
  a &&& b = Ret true <-> a = Ret true /\ b = Ret true.
Proof.
  unfold and_then. destruct a as [[]|e]; cbn.
  - split; [intros H; by split | by intros [_ H]].
  - split; [discriminate | by intros [H _]].
  - split; [discriminate | by intros [H _]].
Qed.

Lemma and_then_Ret_l (x : bool) (b : res bool) :
  Ret x &&& b = if x then b else Ret false.
Proof. reflexivity. Qed.

Lemma field_is_obj kvs k s :
  field_is (JObj kvs) k s = Ret (py_eq_str (default JNull (dict_lookup k kvs)) s).
Proof. reflexivity. Qed.

Lemma field_isinstance_obj kvs k f :
  field_isinstance (JObj kvs) k f = Ret (f (default JNull (dict_lookup k kvs))).
Proof. reflexivity. Qed.

Lemma py_eq_str_true x s : py_eq_str x s = true <-> x = JStr s.
Proof.
  destruct x; simpl; split; intros H; try discriminate.
  - apply String.eqb_eq in H. by subst.
  - injection H as ->. apply String.eqb_refl.
Qed.

Lemma field_is_true kvs k s :
  field_is (JObj kvs) k s = Ret true <-> dict_lookup k kvs = Some (JStr s).
Proof.
  rewrite field_is_obj. split.
  - intros [= H]. apply py_eq_str_true in H.
    destruct (dict_lookup k kvs); simpl in H; congruence.
  - intros ->. simpl. by rewrite String.eqb_refl.
Qed.

(** On a non-dict every recogniser raises [AttributeError]. *)
Lemma field_is_not_obj stmt k s :
  is_dict stmt = false -> field_is stmt k s = Raise AttributeError.
Proof. by destruct stmt. Qed.

Lemma resource_list_2 kvs :
  field_isinstance (JObj kvs) "Resource" is_list = Ret true /\
  resource_len_2 (JObj kvs) = Ret true
  <-> exists r1 r2, dict_lookup "Resource" kvs = Some (JList [r1; r2]).
Proof.
  rewrite <- and_then_true.
  rewrite field_isinstance_obj, and_then_Ret_l. unfold resource_len_2. simpl.
  destruct (dict_lookup "Resource" kvs) as [[| | | |l|]|]; simpl;
    try (split; [discriminate | intros (?&?&?); discriminate]).
  destruct l as [|r1 [|r2 [|r3 l]]]; simpl;
    try (split; [discriminate | intros (?&?&?); discriminate]).
  split; eauto.
Qed.

(** The guarded [len] never raises. *)
Lemma resource_list_2_total kvs :
  exists b, field_isinstance (JObj kvs) "Resource" is_list
            &&& resource_len_2 (JObj kvs) = Ret b.
Proof.
  rewrite field_isinstance_obj, and_then_Ret_l. unfold resource_len_2. simpl.
  destruct (dict_lookup "Resource" kvs) as [[]|]; simpl; eauto.
Qed.

Lemma secure_transport_false_true kvs :
  secure_transport_false (JObj kvs) = Ret true
  <-> exists ckvs bkvs,
        dict_lookup "Condition" kvs = Some (JObj ckvs) /\
        dict_lookup "Bool" ckvs = Some (JObj bkvs) /\
        dict_lookup "aws:SecureTransport" bkvs = Some (JStr "false").
Proof.
  unfold secure_transport_false. simpl. split.
  - destruct (dict_lookup "Condition" kvs) as [[| | | | |ckvs]|]; simpl;
      try discriminate.
    destruct (dict_lookup "Bool" ckvs) as [[| | | | |bkvs]|] eqn:EB; simpl;
      try discriminate.
    destruct (dict_lookup "aws:SecureTransport" bkvs) as [[]|] eqn:E; simpl;
      try discriminate.
    intros [= H]. apply String.eqb_eq in H. subst.
    exists ckvs, bkvs. by repeat split.
  - intros (ckvs & bkvs & -> & Hb & Hs). simpl. rewrite Hb. simpl.
    rewrite Hs. reflexivity.
Qed.

Lemma secure_transport_false_only_AttributeError stmt e :
  secure_transport_false stmt = Raise e -> e = AttributeError.
Proof.
  unfold secure_transport_false. destruct stmt as [| | | | |kvs]; simpl;
    try congruence.
  destruct (dict_lookup "Condition" kvs) as [[| | | | |ckvs]|]; simpl;
    try congruence.
  - destruct (dict_lookup "Bool" ckvs) as [[| | | | |bkvs]|]; simpl;
      congruence.
Qed.

Lemma secure_transport_false_dict kvs :
  secure_transport_false (JObj kvs) = Ret true ->
  field_isinstance (JObj kvs) "Condition" is_dict = Ret true.
Proof.
  intros (ckvs & bkvs & H & _)%secure_transport_false_true.
  rewrite field_isinstance_obj, H. reflexivity.
Qed.

(** On a dict, [complete_deny_http] is false before it reaches the
    [Condition] chain, or has passed every other test and is decided by
    that chain alone. *)
Lemma complete_deny_http_obj kvs :
  complete_deny_http (JObj kvs) = Ret false \/
  (complete_deny_http (JObj kvs) = secure_transport_false (JObj kvs) /\
   is_http_deny (JObj kvs) = secure_transport_false (JObj kvs) /\
   is_complete (JObj kvs) = Ret true).
Proof.
  unfold complete_deny_http, is_http_deny, is_complete, resource_len_2.
  rewrite !field_is_obj, !field_isinstance_obj. cbn.
  destruct (py_eq_str (default JNull (dict_lookup "Sid" kvs)) _); cbn; [|by left].
  destruct (py_eq_str (default JNull (dict_lookup "Effect" kvs)) _); cbn; [|by left].
  destruct (py_eq_str (default JNull (dict_lookup "Principal" kvs)) _); cbn; [|by left].
  destruct (py_eq_str (default JNull (dict_lookup "Action" kvs)) _); cbn; [|by left].
  destruct (dict_lookup "Resource" kvs) as [[| | | |l|]|]; cbn; try by left.
  destruct (length l =? 2)%nat; cbn; [|by left].
  destruct (dict_lookup "Condition" kvs) as [[| | | | |ckvs]|]; cbn; try by left.
  right. repeat split.
Qed.

Lemma is_complete_total kvs : exists b, is_complete (JObj kvs) = Ret b.
Proof.
  unfold is_complete, resource_len_2.
  rewrite !field_is_obj, !field_isinstance_obj. cbn.
  destruct (py_eq_str (default JNull (dict_lookup "Sid" kvs)) _); cbn; eauto.
  destruct (py_eq_str (default JNull (dict_lookup "Principal" kvs)) _); cbn; eauto.
  destruct (py_eq_str (default JNull (dict_lookup "Action" kvs)) _); cbn; eauto.
  destruct (dict_lookup "Resource" kvs) as [[]|]; cbn; eauto.
Qed.

Lemma is_http_deny_obj kvs :
  is_http_deny (JObj kvs) = Ret false \/
  (dict_lookup "Effect" kvs = Some (JStr "Deny") /\
   is_http_deny (JObj kvs) = secure_transport_false (JObj kvs)).
Proof.
  unfold is_http_deny.
  destruct (field_is (JObj kvs) "Effect" "Deny") as [[]|] eqn:E.
  - right. split; [by apply field_is_true | reflexivity].
  - by left.
  - discriminate.
Qed.

Lemma is_http_deny_Ret_obj stmt b :
  is_http_deny stmt = Ret b -> exists kvs, stmt = JObj kvs.
Proof. destruct stmt; try discriminate. eauto. Qed.

(** The recognisers raise nothing but [AttributeError]. *)
Lemma is_http_deny_only_AttributeError stmt e :
  is_http_deny stmt = Raise e -> e = AttributeError.
Proof.
  destruct stmt as [| | | | |kvs]; try (cbn; congruence).
  destruct (is_http_deny_obj kvs) as [H|[_ H]]; rewrite H; [discriminate|].
  apply secure_transport_false_only_AttributeError.
Qed.

Lemma complete_deny_http_only_AttributeError stmt e :
  complete_deny_http stmt = Raise e -> e = AttributeError.
Proof.
  destruct stmt as [| | | | |kvs]; try (cbn; congruence).
  destruct (complete_deny_http_obj kvs) as [H|(H&_)]; rewrite H; [discriminate|].
  apply secure_transport_false_only_AttributeError.
Qed.

(** Where the loop's test does not raise, neither does the generator's. *)
Lemma complete_deny_http_total stmt b :
  is_http_deny stmt = Ret b -> exists b', complete_deny_http stmt = Ret b'.
Proof.
  intros H. destruct (is_http_deny_Ret_obj _ _ H) as [kvs ->].
  destruct (complete_deny_http_obj kvs) as [Hc|(Hc&Hd&_)]; [eauto|].
  rewrite Hc, <- Hd. eauto.
Qed.

Lemma complete_deny_http_kept stmt :
  complete_deny_http stmt = Ret true ->
  is_http_deny stmt = Ret true /\ is_complete stmt = Ret true.
Proof.
  destruct stmt as [| | | | |kvs]; try discriminate.
  destruct (complete_deny_http_obj kvs) as [Hc|(Hc&Hd&Hi)]; [congruence|].
  intros H. split; congruence.
Qed.

Lemma complete_shape_iff stmt :
  complete_deny_http stmt = Ret true <-> complete_shape stmt.
Proof.
  unfold complete_shape. destruct stmt as [| | | | |kvs];
    try (split; [discriminate | intros (?&?&?&?&?&?&_); discriminate]).
  unfold complete_deny_http. rewrite !and_then_true, !field_is_true.
  split.
  - intros (((((((Hs & He) & Hp) & Ha) & Hl) & Hn) & _) & Hc).
    destruct (proj1 (resource_list_2 kvs) (conj Hl Hn)) as (r1 & r2 & Hr).
    apply secure_transport_false_true in Hc as (ckvs & bkvs & Hc & Hb & Ht).
    exists kvs, r1, r2, ckvs, bkvs. by repeat split.
  - intros (kvs' & r1 & r2 & ckvs & bkvs & [= <-] & Hs & He & Hp & Ha & Hr & Hc & Hb & Ht).
    assert (Hst : secure_transport_false (JObj kvs) = Ret true)
      by (apply secure_transport_false_true; eauto).
    destruct (proj2 (resource_list_2 kvs)) as [Hl Hn]; [eauto|].
    repeat split; auto using secure_transport_false_dict.
Qed.

Lemma kept_complete_shape_iff stmt :
  is_http_deny stmt = Ret true /\ is_complete stmt = Ret true <-> complete_shape stmt.
Proof.
  rewrite <- complete_shape_iff. split; [|apply complete_deny_http_kept].
  intros [Hd Hi]. destruct (is_http_deny_Ret_obj _ _ Hd) as [kvs ->].
  revert Hd Hi. unfold complete_deny_http, is_http_deny, is_complete.
  rewrite !and_then_true. intros [He Hc] ((((Hs & Hp) & Ha) & Hl) & Hn).
  repeat split; auto using secure_transport_false_dict.
Qed.

End Recognisers.

(** ** The scanning loop and the three-way decision *)

Section Reconcile.

Lemma py_any_true_elim p l :
  py_any p l = Ret true -> exists x, x ∈ l /\ p x = Ret true.
Proof.
  induction l as [|x l IH]; cbn; [discriminate|].
  destruct (p x) as [[]|] eqn:E; cbn; try discriminate.
  - intros _. exists x. split; [left | done].
  - intros (y & Hy & Hp)%IH. exists y. split; [by right | done].
Qed.

Lemma py_any_total p l :
  Forall (fun x => exists b, p x = Ret b) l -> exists b, py_any p l = Ret b.
Proof.
  induction 1 as [|x l [b Hb] _ IH]; cbn; [eauto|].
  rewrite Hb. cbn. destruct b; eauto.
Qed.

Lemma py_any_true_intro p l x :
  Forall (fun x => exists b, p x = Ret b) l ->
  x ∈ l -> p x = Ret true -> py_any p l = Ret true.
Proof.
  induction 1 as [|y l [b Hb] _ IH]; intros Hin Hx.
  - by apply not_elem_of_nil in Hin.
  - cbn. rewrite Hb. cbn. destruct b; [done|].
    apply elem_of_cons in Hin as [->|Hin]; [congruence | by apply IH].
Qed.

Lemma py_any_only_AttributeError l e :
  py_any complete_deny_http l = Raise e -> e = AttributeError.
Proof.
  induction l as [|x l IH]; cbn; [discriminate|].
  destruct (complete_deny_http x) as [[]|e'] eqn:E; cbn; try discriminate; auto.
  intros [= <-]. eauto using complete_deny_http_only_AttributeError.
Qed.

Lemma is_complete_only_AttributeError stmt e :
  is_complete stmt = Raise e -> e = AttributeError.
Proof.
  destruct stmt as [| | | | |kvs]; try (cbn; congruence).
  destruct (is_complete_total kvs) as [b ->]. discriminate.
Qed.

Lemma scan_statements_only_AttributeError l hi acc e :
  scan_statements l hi acc = Raise e -> e = AttributeError.
Proof.
  revert hi acc. induction l as [|x l IH]; intros hi acc; cbn; [discriminate|].
  destruct (is_http_deny x) as [[]|e1] eqn:Hd; cbn.
  - destruct (is_complete x) as [[]|e2] eqn:Hc; cbn; eauto.
    intros [= <-]. eauto using is_complete_only_AttributeError.
  - eauto.
  - intros [= <-]. eauto using is_http_deny_only_AttributeError.
Qed.

(** A statement on which the loop's test raises stops the loop. *)
Lemma scan_statements_raises l hi acc x e :
  x ∈ l -> is_http_deny x = Raise e ->
  scan_statements l hi acc = Raise AttributeError.
Proof.
  intros Hin Hx. destruct (scan_statements l hi acc) as [r|e'] eqn:E.
  - exfalso. revert hi acc r E.
    induction l as [|y l IH]; intros hi acc r; [by apply not_elem_of_nil in Hin|].
    cbn. apply elem_of_cons in Hin as [<-|Hin].
    + rewrite Hx. discriminate.
    + destruct (is_http_deny y) as [[]|] eqn:Hd; cbn; [|by eauto|discriminate].
      destruct (is_complete y) as [[]|]; cbn; [by eauto|by eauto|discriminate].
  - f_equal. eauto using scan_statements_only_AttributeError.
Qed.

(** What a finished scan returns: the kept statements, in order, after
    the accumulator. *)
Lemma scan_statements_Ret l hi acc hi' news :
  scan_statements l hi acc = Ret (hi', news) ->
  exists keep,
    news = (acc ++ keep)%list /\
    Forall kept keep /\
    Forall (fun x => exists b, is_http_deny x = Ret b) l /\
    (forall x, x ∈ l -> kept x -> x ∈ keep) /\
    (forall x, x ∈ keep -> x ∈ l) /\
    (hi' = hi \/ hi' = true).
Proof.
  revert hi acc. induction l as [|x l IH]; intros hi acc; cbn.
  - intros [= <- <-]. exists []. rewrite app_nil_r.
    repeat split; auto.
  - destruct (is_http_deny x) as [[]|] eqn:Hd; cbn; [|idtac|discriminate].
    + destruct (is_complete x) as [[]|] eqn:Hc; cbn; [|idtac|discriminate].
      * intros (keep & -> & Hk & Ht & Hin & Hsub & Hhi)%IH.
        exists (x :: keep). rewrite <- app_assoc. repeat split; auto.
        -- constructor; [right; by split | done].
        -- constructor; eauto.
        -- intros y [->|Hy]%elem_of_cons HK; [left | right; auto].
        -- intros y [->|Hy]%elem_of_cons; [left | right; auto].
      * intros (keep & -> & Hk & Ht & Hin & Hsub & Hhi)%IH.
        exists keep. repeat split; auto.
        -- constructor; eauto.
        -- intros y [->|Hy]%elem_of_cons HK; [|auto].
           destruct HK as [HK|[_ HK]]; congruence.
        -- intros y Hy. right. auto.
        -- right. by destruct Hhi.
    + intros (keep & -> & Hk & Ht & Hin & Hsub & Hhi)%IH.
      exists (x :: keep). rewrite <- app_assoc. repeat split; auto.
      * constructor; [by left | done].
      * constructor; eauto.
      * intros y [->|Hy]%elem_of_cons HK; [left | right; auto].
      * intros y [->|Hy]%elem_of_cons; [left | right; auto].
Qed.

(** Kept statements pass the loop unchanged and raise no flag. *)
Lemma scan_statements_kept l hi acc :
  Forall kept l -> scan_statements l hi acc = Ret (hi, (acc ++ l)%list).
Proof.
  intros H. revert hi acc. induction H as [|x l Hx _ IH]; intros hi acc; cbn.
  - by rewrite app_nil_r.
  - destruct Hx as [Hd|[Hd Hc]]; rewrite Hd; cbn.
    + rewrite IH. by rewrite <- app_assoc.
    + rewrite Hc. cbn. rewrite IH. by rewrite <- app_assoc.
Qed.

Lemma kept_total x : kept x -> exists b, complete_deny_http x = Ret b.
Proof. intros [H|[H _]]; eauto using complete_deny_http_total. Qed.

Lemma create_deny_http_statement_complete bucket_name :
  complete_deny_http (create_deny_http_statement bucket_name) = Ret true.
Proof. reflexivity. Qed.

Lemma create_deny_http_statement_kept bucket_name :
  kept (create_deny_http_statement bucket_name).
Proof. right. by split. Qed.

Lemma dict_lookup_set k v kvs : dict_lookup k (dict_set k v kvs) = Some v.
Proof.
  induction kvs as [|[k' v'] kvs IH]; cbn.
  - by rewrite String.eqb_refl.
  - destruct (String.eqb k k') eqn:E; cbn; rewrite ?String.eqb_refl, ?E; auto.
Qed.

(** A document whose statements are all kept and one of which is
    complete is left alone. *)
Lemma reconcile_applied bucket_name kvs l x :
  dict_lookup "Statement" kvs = Some (JList l) ->
  Forall kept l -> x ∈ l -> complete_deny_http x = Ret true ->
  reconcile bucket_name (JObj kvs) = Ret AlreadyApplied.
Proof.
  intros Hs Hk Hin Hx. unfold reconcile. cbn. rewrite Hs. cbn.
  rewrite (py_any_true_intro _ l x); auto.
  - cbn. rewrite scan_statements_kept by done. reflexivity.
  - eapply Forall_impl; [exact Hk | apply kept_total].
Qed.

(** Idempotence of the decision: the document it rewrites to is one it
    leaves alone. *)
Lemma reconcile_idempotent bucket_name policy policy_status policy' :
  reconcile bucket_name policy = Ret (Rewrite policy_status policy') ->
  reconcile bucket_name policy' = Ret AlreadyApplied.
Proof.
  unfold reconcile.
  set (doc := if negb (is_None policy) then policy else _).
  destruct (py_get doc "Statement" (JList [])) as [statements|] eqn:Hg;
    cbn; [|discriminate].
  destruct (py_iter statements) as [items|] eqn:Hi; cbn; [|discriminate].
  destruct (py_any complete_deny_http items) as [hc|] eqn:Ha; cbn; [|discriminate].
  destruct (scan_statements items false []) as [[hi news]|] eqn:Hs;
    cbn; [|discriminate].
  apply scan_statements_Ret in Hs as (keep & -> & Hk & Ht & Hin & Hsub & _).
  cbn. destruct doc as [| | | | |kvs]; try discriminate. cbn.
  destruct hi, hc; cbn; try discriminate; intros [= _ <-].
  - apply py_any_true_elim in Ha as (x & Hx & Hc).
    eapply (reconcile_applied _ _ keep x); eauto using dict_lookup_set.
    apply Hin; [done|]. right. by apply complete_deny_http_kept.
  - eapply (reconcile_applied _ _ _ (create_deny_http_statement bucket_name));
      eauto using dict_lookup_set, create_deny_http_statement_complete.
    + apply Forall_app. split; [done|].
      constructor; [apply create_deny_http_statement_kept | constructor].
    + apply elem_of_app. right. left.
  - eapply (reconcile_applied _ _ _ (create_deny_http_statement bucket_name));
      eauto using dict_lookup_set, create_deny_http_statement_complete.
    + apply Forall_app. split; [done|].
      constructor; [apply create_deny_http_statement_kept | constructor].
    + apply elem_of_app. right. left.
Qed.

Lemma reconcile_only_Attribute_or_Type bucket_name policy e :
  reconcile bucket_name policy = Raise e -> e = AttributeError \/ e = TypeError.
Proof.
  unfold reconcile.
  set (doc := if negb (is_None policy) then policy else _).
  destruct (py_get doc "Statement" (JList [])) as [statements|] eqn:Hg; cbn.
  2:{ intros [= <-]. left. destruct doc; cbn in Hg; congruence. }
  destruct (py_iter statements) as [items|] eqn:Hi; cbn.
  2:{ intros [= <-]. right. destruct statements; cbn in Hi; congruence. }
  destruct (py_any complete_deny_http items) as [hc|] eqn:Ha; cbn.
  2:{ intros [= <-]. left. eauto using py_any_only_AttributeError. }
  destruct (scan_statements items false []) as [[hi news]|] eqn:Hs; cbn.
  2:{ intros [= <-]. left. eauto using scan_statements_only_AttributeError. }
  destruct doc; cbn in Hg; try discriminate.
  destruct hi, hc; cbn; discriminate.
Qed.

(** Without a document the decision is to write a fresh one. *)
Lemma reconcile_None bucket_name :
  reconcile bucket_name JNull
  = Ret (Rewrite "not_applied"
           (JObj [ ("Version", JStr "2012-10-17");
                   ("Statement", JList [create_deny_http_statement bucket_name]) ])).
Proof. reflexivity. Qed.

(** The status that goes with a rewritten document. *)
Lemma reconcile_Rewrite_status bucket_name policy policy_status policy' :
  reconcile bucket_name policy = Ret (Rewrite policy_status policy') ->
  policy_status = "not_applied" \/ policy_status = "needs_change".
Proof.
  unfold reconcile.
  set (doc := if negb (is_None policy) then policy else _).
  destruct (py_get doc "Statement" (JList [])) as [statements|]; cbn; [|discriminate].
  destruct (py_iter statements) as [items|]; cbn; [|discriminate].
  destruct (py_any complete_deny_http items) as [hc|]; cbn; [|discriminate].
  destruct (scan_statements items false []) as [[hi news]|]; cbn; [|discriminate].
  destruct doc; cbn; try (destruct hi, hc; discriminate).
  destruct hi, hc; cbn; try discriminate; intros [= <- _]; auto.
  all: destruct (is_None policy); cbn; auto.
Qed.

End Reconcile.

(** ** The transport-deny reconciler against the policy store *)

Section DenyHttp.

Variable self : S3SecureBaseline.
Variable bucket_name : string.

Lemma get_bucket_policy_eq w :
  get_bucket_policy self bucket_name w =
  match faults w (length (calls w)) with
  | Some (ClientError _) => (Ret JNull, log_call (GetBucketPolicy bucket_name) w)
  | Some e => (Raise e, log_call (GetBucketPolicy bucket_name) w)
  | None => (Ret (default JNull (policies w !! bucket_name)),
             log_call (GetBucketPolicy bucket_name) w)
  end.
Proof.
  unfold get_bucket_policy, try_except, s3_client.get_bucket_policy, request.
  destruct (faults w (length (calls w))) as [[code| | | |]|]; cbn; try reflexivity.
  - by destruct (String.eqb code "NoSuchBucketPolicy").
  - by destruct (policies w !! bucket_name).
Qed.

Lemma put_bucket_policy_eq policy w :
  s3_client.put_bucket_policy bucket_name policy w =
  match faults w (length (calls w)) with
  | Some e => (Raise e, log_call (PutBucketPolicy bucket_name policy) w)
  | None => (Ret tt, set_policies (<[bucket_name := policy]> (policies w))
                       (log_call (PutBucketPolicy bucket_name policy) w))
  end.
Proof. reflexivity. Qed.

(** The reconciler, once the policy has been read. *)
Lemma apply_deny_http_policy_read w policy w1 :
  get_bucket_policy self bucket_name w = (Ret policy, w1) ->
  apply_deny_http_policy self bucket_name w =
  match reconcile bucket_name policy with
  | Raise e => (Raise e, w1)
  | Ret AlreadyApplied => (Ret applied, w1)
  | Ret (Rewrite policy_status policy') =>
      if dry_run self then
        (Ret {| status := policy_status; success := false |}, w1)
      else
        let w2 := log_call (PutBucketPolicy bucket_name policy') w1 in
        match faults w1 (length (calls w1)) with
        | None =>
            (Ret applied,
             set_policies (<[bucket_name := policy']> (policies w1)) w2)
        | Some (ClientError _) =>
            (Ret {| status := "error"; success := false |}, w2)
        | Some e => (Raise e, w2)
        end
  end.
Proof.
  intros Hg. unfold apply_deny_http_policy, try_except.
  unfold mbind at 1. unfold M_bind. rewrite Hg. unfold mbind at 1. unfold M_bind.
  unfold lift.
  destruct (reconcile bucket_name policy) as [[|st p']|e] eqn:Hr.
  - reflexivity.
  - destruct (dry_run self); [reflexivity|].
    unfold mbind, M_bind. rewrite put_bucket_policy_eq.
    by destruct (faults w1 (length (calls w1))) as [[]|].
  - by destruct (reconcile_only_Attribute_or_Type _ _ _ Hr) as [-> | ->].
Qed.

Lemma apply_deny_http_policy_unread w e w1 :
  get_bucket_policy self bucket_name w = (Raise e, w1) ->
  apply_deny_http_policy self bucket_name w = (Raise e, w1).
Proof.
  intros Hg. unfold apply_deny_http_policy, try_except.
  unfold mbind at 1. unfold M_bind. rewrite Hg.
  rewrite get_bucket_policy_eq in Hg.
  destruct (faults w (length (calls w))) as [[]|]; by inversion Hg.
Qed.

End DenyHttp.

Section DenyHttpProperties.

Implicit Types (self : S3SecureBaseline) (w : world) (policy : json).

Lemma get_bucket_policy_world self bucket_name w r w1 :
get_bucket_policy self bucket_name w = (r, w1) ->
w1 = log_call (GetBucketPolicy bucket_name) w.
Proof.
rewrite get_bucket_policy_eq.
destruct (faults w (length (calls w))) as [[]|]; by intros [= _ <-].
Qed.

Lemma length_calls_log_call c w :
length (calls (log_call c w)) = S (length (calls w)).
Proof. cbn. rewrite length_app. cbn. lia. Qed.

(** A served read of a document that needs nothing: no write. *)
Lemma apply_deny_http_policy_noop self bucket_name w :
faults w (length (calls w)) = None ->
reconcile bucket_name (default JNull (policies w !! bucket_name)) = Ret AlreadyApplied ->
apply_deny_http_policy self bucket_name w
= (Ret applied, log_call (GetBucketPolicy bucket_name) w).
Proof.
intros Hf Hr.
assert (Hg : get_bucket_policy self bucket_name w
             = (Ret (default JNull (policies w !! bucket_name)),
                log_call (GetBucketPolicy bucket_name) w))
  by (rewrite get_bucket_policy_eq; by rewrite Hf).
rewrite (apply_deny_http_policy_read _ _ _ _ _ Hg). by rewrite Hr.
Qed.

(** A failed read is taken for a missing policy. *)
Lemma apply_deny_http_policy_failed_read self bucket_name w code :
faults w (length (calls w)) = Some (ClientError code) ->
apply_deny_http_policy self bucket_name w =
let w1 := log_call (GetBucketPolicy bucket_name) w in
if dry_run self then (Ret {| status := "not_applied"; success := false |}, w1)
else
  let w2 := log_call (PutBucketPolicy bucket_name (fresh_policy bucket_name)) w1 in
  match faults w (S (length (calls w))) with
  | None =>
      (Ret applied,
       set_policies (<[bucket_name := fresh_policy bucket_name]> (policies w)) w2)
  | Some (ClientError _) => (Ret {| status := "error"; success := false |}, w2)
  | Some e => (Raise e, w2)
  end.
Proof.
intros Hf.
assert (Hg : get_bucket_policy self bucket_name w
             = (Ret JNull, log_call (GetBucketPolicy bucket_name) w))
  by (rewrite get_bucket_policy_eq; by rewrite Hf).
rewrite (apply_deny_http_policy_read _ _ _ _ _ Hg), reconcile_None.
rewrite length_calls_log_call. reflexivity.
Qed.

(** C5. Idempotence of the transport-deny reconciler: once a run on a
  bucket has returned status "applied" (the document was already
  compliant, or the rewritten document has been written), the next run
  whose read is served returns "applied" again, and its only request is
  that read: the stored document is not written a second time. *)
Theorem apply_deny_http_policy_idempotent self self' bucket_name w r w1 :
apply_deny_http_policy self bucket_name w = (Ret r, w1) ->
status r = "applied" ->
faults w1 (length (calls w1)) = None ->
apply_deny_http_policy self' bucket_name w1
= (Ret applied, log_call (GetBucketPolicy bucket_name) w1).
Proof.
intros H Hst Hf.
destruct (get_bucket_policy self bucket_name w) as [[policy|e] w0] eqn:Hg.
2:{ rewrite (apply_deny_http_policy_unread _ _ _ _ _ Hg) in H. discriminate. }
rewrite (apply_deny_http_policy_read _ _ _ _ _ Hg) in H.
pose proof (get_bucket_policy_world _ _ _ _ _ Hg) as ->.
destruct (reconcile bucket_name policy) as [[|st policy']|e] eqn:Hr;
  [| |discriminate].
- injection H as <- <-.
  apply apply_deny_http_policy_noop; [done|]. cbn.
  rewrite get_bucket_policy_eq in Hg.
  destruct (faults w (length (calls w))) as [[]|]; try discriminate.
  + injection Hg as <-. by rewrite reconcile_None in Hr.
  + injection Hg as <-. done.
- destruct (dry_run self).
  { injection H as <- <-. cbn in Hst. subst st.
    by destruct (reconcile_Rewrite_status _ _ _ _ Hr). }
  destruct (faults _ _) as [[]|] eqn:Hp in H; try discriminate.
  + injection H as <- <-. by cbn in Hst.
  + injection H as <- <-.
    apply apply_deny_http_policy_noop; [done|]. cbn.
    rewrite lookup_insert_eq. cbn. eauto using reconcile_idempotent.
Qed.

(** C3, as the code has it.  Dry-run returns the classification found
  before any change: "applied" for a compliant document, and then apply
  mode returns the same record and neither mode writes; otherwise
  "not_applied" or "needs_change" with [success = false], where apply
  mode issues the write of the rewritten document and returns "applied",
  or "error" when that write fails with a [ClientError]. *)
Theorem dry_run_status_and_apply_status self_dry self_apply bucket_name w r w1 :
dry_run self_dry = true ->
dry_run self_apply = false ->
apply_deny_http_policy self_dry bucket_name w = (Ret r, w1) ->
(r = applied /\ apply_deny_http_policy self_apply bucket_name w = (Ret r, w1))
\/
((status r = "not_applied" \/ status r = "needs_change") /\ success r = false /\
 exists policy',
   let w2 := log_call (PutBucketPolicy bucket_name policy') w1 in
   apply_deny_http_policy self_apply bucket_name w =
   match faults w (S (length (calls w))) with
   | None =>
       (Ret applied, set_policies (<[bucket_name := policy']> (policies w)) w2)
   | Some (ClientError _) => (Ret {| status := "error"; success := false |}, w2)
   | Some e => (Raise e, w2)
   end).
Proof.
intros Hd Ha H.
destruct (get_bucket_policy self_dry bucket_name w) as [[policy|e] w0] eqn:Hg.
2:{ rewrite (apply_deny_http_policy_unread _ _ _ _ _ Hg) in H. discriminate. }
assert (Hg' : get_bucket_policy self_apply bucket_name w = (Ret policy, w0))
  by (rewrite <- Hg; by rewrite !get_bucket_policy_eq).
rewrite (apply_deny_http_policy_read _ _ _ _ _ Hg) in H.
rewrite (apply_deny_http_policy_read _ _ _ _ _ Hg').
pose proof (get_bucket_policy_world _ _ _ _ _ Hg) as ->.
destruct (reconcile bucket_name policy) as [[|st policy']|e] eqn:Hr;
  [| |discriminate].
- injection H as <- <-. by left.
- rewrite Hd in H. rewrite Ha. injection H as <- <-. right. cbn.
  split; [eauto using reconcile_Rewrite_status|]. split; [done|].
  exists policy'. rewrite length_app. cbn.
  by replace (length (calls w) + 1) with (S (length (calls w))) by lia.
Qed.

Lemma malformed_condition_is_http_deny stmt :
malformed_condition stmt -> is_http_deny stmt = Raise AttributeError.
Proof.
intros (kvs & c & -> & He & Hc & Hbad).
unfold is_http_deny. rewrite (proj2 (field_is_true kvs "Effect" "Deny") He).
cbn. unfold secure_transport_false. cbn. rewrite Hc. cbn.
destruct Hbad as [Hbad | (ckvs & bv & -> & Hb & Hbad)].
- by destruct c.
- cbn. rewrite Hb. cbn. by destruct bv.
Qed.

Lemma reconcile_malformed_condition bucket_name kvs items stmt :
dict_lookup "Statement" kvs = Some (JList items) ->
stmt ∈ items -> malformed_condition stmt ->
reconcile bucket_name (JObj kvs) = Raise AttributeError.
Proof.
intros Hs Hin Hbad. unfold reconcile. cbn. rewrite Hs. cbn.
destruct (py_any complete_deny_http items) as [hc|e] eqn:Ha; cbn.
- by rewrite (scan_statements_raises items false [] stmt AttributeError)
    by auto using malformed_condition_is_http_deny.
- f_equal. eauto using py_any_only_AttributeError.
Qed.

(** C10. A stored document with a statement whose [Effect] is "Deny" and
  whose [Condition] is present but not a dict, or whose [Condition.Bool]
  is present but not a dict, makes [apply_deny_http_policy] raise
  [AttributeError]: the handler catches [ClientError] only, so no status
  record is returned and nothing is written. *)
Theorem malformed_condition_raises self bucket_name w kvs items stmt :
faults w (length (calls w)) = None ->
policies w !! bucket_name = Some (JObj kvs) ->
dict_lookup "Statement" kvs = Some (JList items) ->
stmt ∈ items ->
malformed_condition stmt ->
apply_deny_http_policy self bucket_name w
= (Raise AttributeError, log_call (GetBucketPolicy bucket_name) w).
Proof.
intros Hf Hp Hs Hin Hbad.
assert (Hg : get_bucket_policy self bucket_name w
             = (Ret (JObj kvs), log_call (GetBucketPolicy bucket_name) w))
  by (rewrite get_bucket_policy_eq; by rewrite Hf, Hp).
rewrite (apply_deny_http_policy_read _ _ _ _ _ Hg).
by rewrite (reconcile_malformed_condition _ _ _ _ Hs Hin Hbad).
Qed.

End DenyHttpProperties.

(** ** Well-formed documents are always reconciled *)

Section Totality.

Lemma well_formed_secure_transport_false stmt :
well_formed_statement stmt -> exists b, secure_transport_false stmt = Ret b.
Proof.
intros (kvs & -> & Hc). unfold secure_transport_false. cbn.
destruct (dict_lookup "Condition" kvs) as [[| | | | |ckvs]|]; try done; cbn; eauto.
destruct (dict_lookup "Bool" ckvs) as [[]|]; try done; cbn; eauto.
Qed.

Lemma well_formed_is_http_deny stmt :
well_formed_statement stmt -> exists b, is_http_deny stmt = Ret b.
Proof.
intros Hwf. destruct (well_formed_secure_transport_false _ Hwf) as [b Hb].
destruct Hwf as (kvs & -> & _).
destruct (is_http_deny_obj kvs) as [H|[_ H]]; rewrite H; eauto.
Qed.

Lemma scan_statements_total l hi acc :
Forall well_formed_statement l -> exists r, scan_statements l hi acc = Ret r.
Proof.
intros H. revert hi acc. induction H as [|x l Hx _ IH]; intros hi acc; cbn; [eauto|].
destruct (well_formed_is_http_deny _ Hx) as [b ->]. cbn.
destruct Hx as (kvs & -> & _). destruct (is_complete_total kvs) as [c ->]. cbn.
destruct b, c; apply IH.
Qed.

Lemma reconcile_total bucket_name policy :
well_formed_policy policy -> exists p, reconcile bucket_name policy = Ret p.
Proof.
intros [-> | (kvs & -> & Hs)]; [rewrite reconcile_None; eauto|].
unfold reconcile. cbn.
assert (Hitems : exists items,
           py_iter (default (JList []) (dict_lookup "Statement" kvs)) = Ret items /\
           Forall well_formed_statement items).
{ destruct (dict_lookup "Statement" kvs) as [[| | | |items|]|]; try done; cbn; eauto. }
destruct Hitems as (items & -> & Hwf). cbn.
destruct (py_any_total complete_deny_http items) as [hc ->].
{ eapply Forall_impl; [exact Hwf|]. intros x Hx.
  destruct (well_formed_is_http_deny _ Hx) as [b Hb].
  eauto using complete_deny_http_total. }
destruct (scan_statements_total items false [] Hwf) as [[hi news] ->]. cbn.
destruct hi, hc; cbn; eauto.
Qed.

(** In apply mode, with both requests served, a well-formed stored
  document (or none) always ends "applied". *)
Lemma apply_mode_reaches_applied self bucket_name w :
dry_run self = false ->
faults w (length (calls w)) = None ->
faults w (S (length (calls w))) = None ->
well_formed_policy (default JNull (policies w !! bucket_name)) ->
exists w1, apply_deny_http_policy self bucket_name w = (Ret applied, w1).
Proof.
intros Hd Hf0 Hf1 Hwf.
assert (Hg : get_bucket_policy self bucket_name w
             = (Ret (default JNull (policies w !! bucket_name)),
                log_call (GetBucketPolicy bucket_name) w))
  by (rewrite get_bucket_policy_eq; by rewrite Hf0).
rewrite (apply_deny_http_policy_read _ _ _ _ _ Hg).
destruct (reconcile_total bucket_name _ Hwf) as [[|st p'] ->]; [eauto|].
rewrite Hd, length_calls_log_call. cbn. rewrite Hf1. eauto.
Qed.

End Totality.

(** ** Dry-run issues no write *)

Section DryRun.

Lemma read_only_refl w : read_only w w.
Proof.
repeat split. exists []. by rewrite app_nil_r.
Qed.

Lemma read_only_trans w1 w2 w3 :
read_only w1 w2 -> read_only w2 w3 -> read_only w1 w3.
Proof.
intros (Hb & Hp & Hl & Hf & cs & Hc & Hr) (Hb' & Hp' & Hl' & Hf' & cs' & Hc' & Hr').
repeat split; try congruence.
exists (cs ++ cs')%list. split.
- by rewrite Hc', Hc, <- app_assoc.
- by apply Forall_app.
Qed.

Lemma read_only_log_call c w : is_write c = false -> read_only w (log_call c w).
Proof.
intros Hc. repeat split. exists [c]. split; [done|]. by constructor.
Qed.

Lemma pure_reader_ret {A} (a : A) : pure_reader (mret a).
Proof. intros w. apply read_only_refl. Qed.

Lemma pure_reader_lift {A} (r : res A) : pure_reader (lift r).
Proof. intros w. apply read_only_refl. Qed.

Lemma pure_reader_bind {A B} (m : M A) (f : A -> M B) :
pure_reader m -> (forall a, pure_reader (f a)) -> pure_reader (m ≫= f).
Proof.
intros Hm Hf w. unfold mbind, M_bind. specialize (Hm w).
destruct (m w) as [[a|e] w1]; cbn in *; [|done].
eapply read_only_trans; [exact Hm | apply Hf].
Qed.

Lemma pure_reader_try_except {A} (body : M A) catches handler :
pure_reader body -> (forall e, pure_reader (handler e)) ->
pure_reader (try_except body catches handler).
Proof.
intros Hm Hh w. unfold try_except. specialize (Hm w).
destruct (body w) as [[a|e] w1]; cbn in *; [done|].
destruct (catches e); cbn; [|done].
eapply read_only_trans; [exact Hm | apply Hh].
Qed.

Lemma pure_reader_request {A} c (serve : world -> res A * world) :
is_write c = false -> (forall w, snd (serve w) = w) ->
pure_reader (request c serve).
Proof.
intros Hc Hs w. unfold request.
destruct (faults w (length (calls w))); cbn.
- by apply read_only_log_call.
- rewrite Hs. by apply read_only_log_call.
Qed.

Lemma pure_reader_head_bucket b : pure_reader (s3_client.head_bucket b).
Proof.
apply pure_reader_request; [done|]. intros w. by destruct (bool_decide _).
Qed.

Lemma pure_reader_list_buckets : pure_reader s3_client.list_buckets.
Proof. by apply pure_reader_request. Qed.

Lemma pure_reader_get_bucket_policy b : pure_reader (s3_client.get_bucket_policy b).
Proof.
apply pure_reader_request; [done|]. intros w. by destruct (policies w !! b).
Qed.

Lemma pure_reader_get_bucket_logging b : pure_reader (s3_client.get_bucket_logging b).
Proof. by apply pure_reader_request. Qed.

Lemma pure_reader_get_caller_identity : pure_reader sts_client.get_caller_identity.
Proof. by apply pure_reader_request. Qed.

Create HintDb reader.

#[local] Hint Resolve pure_reader_ret pure_reader_lift pure_reader_head_bucket
pure_reader_list_buckets pure_reader_get_bucket_policy
pure_reader_get_bucket_logging pure_reader_get_caller_identity : reader.

(** Decompose a method body along its binds, handlers and branches. *)
Ltac reader :=
repeat first
  [ solve [auto with reader]
  | apply pure_reader_bind
  | apply pure_reader_try_except
  | match goal with
    | |- forall _, _ => intro
    | |- pure_reader (if ?b then _ else _) => destruct b
    | |- pure_reader (match ?x with _ => _ end) => destruct x
    end ].

Lemma pure_reader_get_policy self b : pure_reader (get_bucket_policy self b).
Proof. unfold get_bucket_policy. reader. Qed.

Lemma pure_reader_get_logging_status self b :
pure_reader (get_logging_status self b).
Proof. unfold get_logging_status. reader. Qed.

Lemma pure_reader_get_all_buckets self : pure_reader (get_all_buckets self).
Proof. unfold get_all_buckets. reader. Qed.

#[local] Hint Resolve pure_reader_get_policy pure_reader_get_logging_status
pure_reader_get_all_buckets : reader.

Lemma pure_reader_apply_deny_http_policy self b :
dry_run self = true -> pure_reader (apply_deny_http_policy self b).
Proof. intros Hd. unfold apply_deny_http_policy. rewrite Hd. reader. Qed.

Lemma pure_reader_enable_access_logging self b :
dry_run self = true -> pure_reader (enable_access_logging self b).
Proof. intros Hd. unfold enable_access_logging. rewrite Hd. reader. Qed.

#[local] Hint Resolve pure_reader_apply_deny_http_policy
pure_reader_enable_access_logging : reader.

Lemma pure_reader_apply_baseline_to_bucket self b :
dry_run self = true -> pure_reader (apply_baseline_to_bucket self b).
Proof. intros Hd. unfold apply_baseline_to_bucket. rewrite Hd. reader. Qed.

#[local] Hint Resolve pure_reader_apply_baseline_to_bucket : reader.

Lemma pure_reader_process_buckets self names results :
dry_run self = true -> pure_reader (process_buckets self names results).
Proof.
intros Hd. revert results. induction names as [|b names IH]; intros results; cbn.
- reader.
- apply pure_reader_bind; [reader | done].
Qed.

Lemma dry_run_get_all_buckets self w names self' w' :
get_all_buckets self w = (Ret (names, self'), w') -> dry_run self' = dry_run self.
Proof.
unfold get_all_buckets, try_except, s3_client.list_buckets, request.
unfold mbind, M_bind.
destruct (faults w (length (calls w))) as [[]|]; cbn; try discriminate.
- by intros [= _ <- _].
- destruct (bool_decide _); by intros [= _ <- _].
Qed.

Lemma pure_reader_apply_baseline_to_all_buckets self :
dry_run self = true -> pure_reader (apply_baseline_to_all_buckets self).
Proof.
intros Hd w. unfold apply_baseline_to_all_buckets, mbind, M_bind.
pose proof (pure_reader_get_all_buckets self w) as Hg.
destruct (get_all_buckets self w) as [[[names self']|e] w1] eqn:E; cbn in *; [|done].
apply dry_run_get_all_buckets in E. rewrite Hd in E.
eapply read_only_trans; [exact Hg|].
destruct names as [|b names]; [apply read_only_refl|].
pose proof (pure_reader_process_buckets self' (b :: names) ∅ E w1) as Hp.
destruct (process_buckets self' (b :: names) ∅ w1) as [[r|e] w2]; cbn in *; done.
Qed.

Lemma pure_reader__ensure_log_bucket self :
dry_run self = true -> pure_reader (_ensure_log_bucket self).
Proof. intros Hd. unfold _ensure_log_bucket. rewrite Hd. reader. Qed.

Lemma pure_reader__init__ ex sp sl ho lo :
pure_reader (__init__ true ex sp sl ho lo).
Proof.
unfold __init__, _get_account_id.
apply pure_reader_bind; [reader|]. intros a.
apply pure_reader_bind; [by apply pure_reader__ensure_log_bucket | reader].
Qed.

Lemma dry_run__init__ d ex sp sl ho lo w self w' :
__init__ d ex sp sl ho lo w = (Ret self, w') -> dry_run self = d.
Proof.
unfold __init__, mbind, M_bind.
destruct (_get_account_id w) as [[a|e] w1]; [|discriminate].
destruct (_ensure_log_bucket _ w1) as [[b|e] w2]; [|discriminate].
by intros [= <- _].
Qed.

(** Without [--apply] the whole of [main] is read-only. *)
Lemma main_dry_run_read_only args w :
Args.apply args = false -> read_only w (snd (main args w)).
Proof.
intros Ha. unfold main. rewrite Ha. cbn [negb].
destruct (Args.http_only args && Args.logging_only args); [apply read_only_refl|].
unfold mbind at 1. unfold M_bind.
pose proof (pure_reader__init__ (Some (default [] (Args.exclude args)))
              (Args.show_policy args) (Args.show_logging args)
              (Args.http_only args) (Args.logging_only args) w) as Hi.
destruct (__init__ _ _ _ _ _ _ w) as [[self|e] w1] eqn:E; cbn in Hi.
2:{ by destruct e. }
apply dry_run__init__ in E.
assert (Hbody : forall (m : M (gmap string bucket_results)),
           pure_reader m ->
           read_only w (snd (match m w1 with
                             | (Ret results, w') => (Reported results, w')
                             | (Raise KeyboardInterrupt, w') => (SystemExit 1, w')
                             | (Raise _, w') => (SystemExit 1, w')
                             end))).
{ intros m Hm. specialize (Hm w1).
  destruct (m w1) as [[r|[]] w2]; cbn in *; eauto using read_only_trans. }
destruct (given (Args.bucket args)); apply Hbody.
- apply pure_reader_bind; [by apply pure_reader_apply_baseline_to_bucket | reader].
- apply pure_reader_bind; [by apply pure_reader_apply_baseline_to_all_buckets | reader].
Qed.

(** C6. Under dry-run, processing a bucket issues neither
    [put_bucket_policy] nor [put_bucket_logging] (nor any other write):
    whatever the statuses computed and whether or not the run raises, the
    policy store and the logging store are what they were, and every
    request made is a read. *)
Theorem dry_run_writes_nothing self bucket_name w :
  dry_run self = true ->
  policies (snd (apply_baseline_to_bucket self bucket_name w)) = policies w /\
  loggings (snd (apply_baseline_to_bucket self bucket_name w)) = loggings w /\
  exists cs,
    calls (snd (apply_baseline_to_bucket self bucket_name w)) = (calls w ++ cs)%list /\
    Forall (fun c => is_write c = false) cs.
Proof.
  intros Hd.
  assert (Hr : pure_reader (apply_baseline_to_bucket self bucket_name)).
  { unfold apply_baseline_to_bucket. rewrite Hd.
    apply pure_reader_bind; [|intros http; apply pure_reader_bind; [|reader]].
    - destruct (negb (logging_only self)); [|reader].
      apply pure_reader_bind; [by apply pure_reader_apply_deny_http_policy | reader].
    - destruct (negb (http_only self)); [|reader].
      apply pure_reader_bind; [reader|]. intros logging_status.
      apply pure_reader_bind; [by apply pure_reader_enable_access_logging | reader]. }
  destruct (Hr w) as (_ & Hp & Hl & _ & Hc). auto.
Qed.

End DryRun.

(** ** The batch loop *)

Section Batch.

Implicit Types (self : S3SecureBaseline) (w : world)
(results : gmap string bucket_results).

Lemma process_buckets_app self pre post results w :
process_buckets self (pre ++ post) results w =
match process_buckets self pre results w with
| (Ret results1, w1) => process_buckets self post results1 w1
| (Raise e, w1) => (Raise e, w1)
end.
Proof.
revert results w. induction pre as [|b pre IH]; intros results w; [done|].
cbn. unfold mbind, M_bind.
destruct (try_except _ _ _ w) as [[r|e] w1]; [apply IH | done].
Qed.

(** One turn of the loop on a bucket whose processing raises. *)
Lemma process_buckets_raise self name post results w e w1 :
apply_baseline_to_bucket self name w = (Raise e, w1) ->
is_Exception e = true ->
process_buckets self (name :: post) results w
= process_buckets self post (<[name := error_results]> results) w1.
Proof.
intros Hb He. cbn. unfold mbind at 1. unfold M_bind.
unfold try_except, mbind, M_bind. rewrite Hb, He. reflexivity.
Qed.

Lemma process_buckets_lookup self names results w final w' :
process_buckets self names results w = (Ret final, w') ->
(forall k, k ∈ names -> is_Some (final !! k)) /\
(forall k, k ∉ names -> final !! k = results !! k).
Proof.
revert results w. induction names as [|b names IH]; intros results w.
- intros [= <- <-]. split; [|done]. intros k Hk. by apply not_elem_of_nil in Hk.
- cbn. unfold mbind at 1. unfold M_bind.
  destruct (try_except _ _ _ w) as [[r|e] w1] eqn:E; [|discriminate].
  intros [Hin Hout]%IH.
  assert (Hr : exists v, r = <[b := v]> results).
  { revert E. unfold try_except, mbind, M_bind.
    destruct (apply_baseline_to_bucket self b w) as [[v|e] w2].
    - intros [= <- _]. eauto.
    - destruct (is_Exception e); [|discriminate]. intros [= <- _]. eauto. }
  destruct Hr as [v ->]. split.
  + intros k Hk. destruct (decide (k ∈ names)) as [|Hn]; [auto|].
    rewrite (Hout k Hn).
    apply elem_of_cons in Hk as [->|]; [|done]. rewrite lookup_insert_eq. eauto.
  + intros k Hk. apply not_elem_of_cons in Hk as [Hne Hk].
    rewrite (Hout k Hk). by rewrite lookup_insert_ne.
Qed.

(** The all-buckets run is the loop over the enumerated names. *)
Lemma apply_baseline_to_all_buckets_eq self w names self' w0 :
  get_all_buckets self w = (Ret (names, self'), w0) ->
  names <> [] ->
  apply_baseline_to_all_buckets self w =
  match process_buckets self' names ∅ w0 with
  | (Ret final, w3) => (Ret (final, self'), w3)
  | (Raise e, w3) => (Raise e, w3)
  end.
Proof.
  intros Hg Hne. unfold apply_baseline_to_all_buckets.
  unfold mbind at 1. unfold M_bind. rewrite Hg. cbn [fst snd].
  destruct names as [|b names]; [done|].
  unfold mbind at 1. unfold M_bind.
  by destruct (process_buckets self' (b :: names) ∅ w0) as [[final|e] w3].
Qed.

End Batch.

(** ** Only [KeyboardInterrupt] leaves the batch loop *)

Section Uninterrupted.

Lemma raises_Exception_only_ret {A} (a : A) : raises_Exception_only (mret a).
Proof. intros w _. split; [done|]. discriminate. Qed.

Lemma raises_Exception_only_lift {A} (r : res A) :
(forall e, r = Raise e -> is_Exception e = true) ->
raises_Exception_only (lift r).
Proof. intros Hr w _. split; [done|]. apply Hr. Qed.

Lemma raises_Exception_only_bind {A B} (m : M A) (f : A -> M B) :
raises_Exception_only m -> (forall a, raises_Exception_only (f a)) ->
raises_Exception_only (m ≫= f).
Proof.
intros Hm Hf w Hw. unfold mbind, M_bind. destruct (Hm w Hw) as [Hfm Hem].
destruct (m w) as [[a|e] w1]; cbn in *; [|split; [done | intros ? [= <-]; by apply Hem]].
assert (Hw1 : uninterrupted w1) by (intros n; rewrite Hfm; apply Hw).
destruct (Hf a w1 Hw1) as [Hff Hef]. split; [congruence | done].
Qed.

Lemma raises_Exception_only_try_except {A} (body : M A) catches handler :
raises_Exception_only body ->
(forall e, catches e = true -> raises_Exception_only (handler e)) ->
raises_Exception_only (try_except body catches handler).
Proof.
intros Hm Hh w Hw. unfold try_except. destruct (Hm w Hw) as [Hfm Hem].
destruct (body w) as [[a|e] w1]; cbn in *; [split; [done | discriminate]|].
destruct (catches e) eqn:Hc; cbn; [|split; [done | intros ? [= <-]; by apply Hem]].
assert (Hw1 : uninterrupted w1) by (intros n; rewrite Hfm; apply Hw).
destruct (Hh e Hc w1 Hw1) as [Hfh Heh]. split; [congruence | done].
Qed.

Lemma raises_Exception_only_request {A} c (serve : world -> res A * world) :
(forall w, faults (snd (serve w)) = faults w) ->
(forall w e, fst (serve w) = Raise e -> is_Exception e = true) ->
raises_Exception_only (request c serve).
Proof.
intros Hs He w Hw. unfold request.
destruct (faults w (length (calls w))) as [e|] eqn:E; cbn.
- split; [done|]. intros e' [= <-]. specialize (Hw (length (calls w))).
  by destruct e.
- rewrite Hs. split; [done|]. apply He.
Qed.

Create HintDb raises.

Lemma raises_head_bucket b : raises_Exception_only (s3_client.head_bucket b).
Proof.
apply raises_Exception_only_request; intros w; destruct (bool_decide _); cbn;
  try done; by intros e [= <-].
Qed.

Lemma raises_create_bucket b l : raises_Exception_only (s3_client.create_bucket b l).
Proof.
apply raises_Exception_only_request; intros w; destruct (bool_decide _); cbn;
  try done; by intros e [= <-].
Qed.

Lemma raises_list_buckets : raises_Exception_only s3_client.list_buckets.
Proof. by apply raises_Exception_only_request. Qed.

Lemma raises_s3_get_bucket_policy b :
raises_Exception_only (s3_client.get_bucket_policy b).
Proof.
apply raises_Exception_only_request; intros w; destruct (policies w !! b); cbn;
  try done; by intros e [= <-].
Qed.

Lemma raises_put_bucket_policy b p :
raises_Exception_only (s3_client.put_bucket_policy b p).
Proof. by apply raises_Exception_only_request. Qed.

Lemma raises_get_bucket_logging b :
raises_Exception_only (s3_client.get_bucket_logging b).
Proof. by apply raises_Exception_only_request. Qed.

Lemma raises_put_bucket_logging b c :
raises_Exception_only (s3_client.put_bucket_logging b c).
Proof. by apply raises_Exception_only_request. Qed.

Lemma raises_reconcile b policy :
raises_Exception_only (lift (reconcile b policy)).
Proof.
apply raises_Exception_only_lift. intros e He.
by destruct (reconcile_only_Attribute_or_Type _ _ _ He) as [-> | ->].
Qed.

#[local] Hint Resolve raises_Exception_only_ret raises_head_bucket
raises_create_bucket raises_list_buckets raises_s3_get_bucket_policy
raises_put_bucket_policy raises_get_bucket_logging raises_put_bucket_logging
raises_reconcile : raises.

Ltac raises :=
repeat first
  [ solve [auto with raises]
  | match goal with H : is_ClientError _ = true |- _ => discriminate H end
  | apply raises_Exception_only_bind
  | apply raises_Exception_only_try_except
  | match goal with
    | |- forall _, _ => intro
    | |- raises_Exception_only (if ?b then _ else _) => destruct b
    | |- raises_Exception_only (match ?x with _ => _ end) => destruct x
    | |- raises_Exception_only (lift (Raise _)) =>
        apply raises_Exception_only_lift; by intros ? [= <-]
    end ].

Lemma raises_apply_baseline_to_bucket self b :
raises_Exception_only (apply_baseline_to_bucket self b).
Proof.
unfold apply_baseline_to_bucket, apply_deny_http_policy, get_bucket_policy,
  enable_access_logging, get_logging_status.
raises.
Qed.

(** On a schedule without [KeyboardInterrupt] the loop runs to its end. *)
Lemma process_buckets_total self names results w :
uninterrupted w ->
exists final w', process_buckets self names results w = (Ret final, w').
Proof.
revert results w. induction names as [|b names IH]; intros results w Hw.
- cbn. eauto.
- cbn. unfold mbind at 1. unfold M_bind.
  destruct (raises_apply_baseline_to_bucket self b w Hw) as [Hf He].
  unfold try_except, mbind, M_bind.
  destruct (apply_baseline_to_bucket self b w) as [[r|e] w1]; cbn in *.
  + apply IH. intros n. rewrite Hf. apply Hw.
  + rewrite (He e eq_refl). cbn. apply IH. intros n. rewrite Hf. apply Hw.
Qed.

End Uninterrupted.

(** ** Exclusion and explicit targeting *)

Section Targeting.

Lemma __init___fields d ex sp sl ho lo w self w' :
__init__ d ex sp sl ho lo w = (Ret self, w') ->
exclude_buckets self = default [] ex /\ account_id self = account w.
Proof.
unfold __init__. unfold mbind at 1. unfold M_bind.
destruct (_get_account_id w) as [[a|e] w1] eqn:Ha; [|discriminate].
assert (a = account w) as ->.
{ revert Ha. unfold _get_account_id, try_except, sts_client.get_caller_identity,
    request, lift.
  destruct (faults w (length (calls w))) as [[]|]; cbn; congruence. }
unfold mbind, M_bind.
destruct (_ensure_log_bucket _ w1) as [[b|e] w2]; [|discriminate].
by intros [= <- _].
Qed.

(** What [get_all_buckets] returns names no excluded bucket, and not the
  central log bucket. *)
Lemma get_all_buckets_excludes self w names self' w' :
get_all_buckets self w = (Ret (names, self'), w') ->
forall k, k ∈ names ->
  (k ∉ exclude_buckets self) /\ k <> log_bucket_name (account_id self).
Proof.
unfold get_all_buckets, try_except, s3_client.list_buckets, request.
unfold mbind, M_bind.
destruct (faults w (length (calls w))) as [[]|]; cbn; try discriminate.
- intros [= <- _ _] k Hk. by apply not_elem_of_nil in Hk.
- destruct (bool_decide _) eqn:Hlog; intros [= <- _ _] k [Hk _]%list_elem_of_filter.
  + apply bool_decide_eq_true in Hlog. split; [done|]. by intros ->.
  + cbn in Hk. rewrite elem_of_app in Hk. split.
    * tauto.
    * intros ->. apply Hk. right. left.
Qed.

Lemma apply_baseline_to_all_buckets_keys self w results self' w' :
apply_baseline_to_all_buckets self w = (Ret (results, self'), w') ->
forall k, k ∈ exclude_buckets self \/ k = log_bucket_name (account_id self) ->
  results !! k = None.
Proof.
unfold apply_baseline_to_all_buckets. unfold mbind at 1. unfold M_bind.
destruct (get_all_buckets self w) as [[[names self1]|e] w1] eqn:Hg; [|discriminate].
pose proof (get_all_buckets_excludes _ _ _ _ _ Hg) as Hex. cbn.
destruct names as [|b names]; [by intros [= <- _ _] k _|].
unfold mbind, M_bind.
destruct (process_buckets self1 (b :: names) ∅ w1) as [[final|e] w2] eqn:Hp;
  [|discriminate].
intros [= <- _ _] k Hk.
apply process_buckets_lookup in Hp as [_ Hout].
rewrite Hout; [done|]. intros Hin. destruct (Hex k Hin). tauto.
Qed.

(** C8. The exclusion list, with the central log bucket's name added to
  it, filters the enumeration only.  For a bucket named by [--exclude]
  (or the log bucket itself): with [--bucket] naming it, [main] reports
  exactly the result of processing it; with no [--bucket], the reported
  results have no entry for it. *)
Theorem exclusion_only_when_enumerating args name w baseline w1 r w2 :
name <> "" ->
name ∈ default [] (Args.exclude args) \/ name = log_bucket_name (account w) ->
Args.http_only args && Args.logging_only args = false ->
__init__ (negb (Args.apply args)) (Some (default [] (Args.exclude args)))
  (Args.show_policy args) (Args.show_logging args)
  (Args.http_only args) (Args.logging_only args) w = (Ret baseline, w1) ->
apply_baseline_to_bucket baseline name w1 = (Ret r, w2) ->
main (with_bucket (Some name) args) w = (Reported {[ name := r ]}, w2) /\
forall results w',
  main (with_bucket None args) w = (Reported results, w') ->
  results !! name = None.
Proof.
intros Hne Hex Hflags Hinit Hrun. split.
- unfold main. cbn. rewrite Hflags. unfold mbind at 1. unfold M_bind.
  rewrite Hinit.
  assert (String.eqb name "" = false) as -> by by apply String.eqb_neq.
  cbn. unfold mbind, M_bind. by rewrite Hrun.
- intros results w'. unfold main. cbn. rewrite Hflags.
  unfold mbind at 1. unfold M_bind. rewrite Hinit.
  unfold mbind, M_bind.
  destruct (apply_baseline_to_all_buckets baseline w1) as [[[res self']|e] w3] eqn:Ha.
  2:{ by destruct e. }
  cbn. intros [= <- _].
  apply (apply_baseline_to_all_buckets_keys _ _ _ _ _ Ha).
  destruct (__init___fields _ _ _ _ _ _ _ _ _ Hinit) as [-> ->]. exact Hex.
Qed.

End Targeting.

(** ** The logging reconciler *)

Section Logging.

Lemma get_logging_status_served self b w :
  faults w (length (calls w)) = None ->
  exists st, get_logging_status self b w = (Ret st, log_call (GetBucketLogging b) w) /\
             st <> "error".
Proof.
  intros Hf. unfold get_logging_status, try_except, s3_client.get_bucket_logging, request.
  unfold mbind, M_bind. rewrite Hf. cbn.
  destruct (loggings w !! b) as [cfg|]; cbn; [|by eauto].
  destruct (_ && _); cbn; eauto.
Qed.

(** When the reads are served and the write fails with a [ClientError],
    the flag is false and the status is the one read before. *)
Lemma failed_logging_write_keeps_status self b w code :
  logging_only self = true -> http_only self = false ->
  dry_run self = false -> show_logging self = false ->
  faults w (length (calls w)) = None ->
  faults w (S (length (calls w))) = None ->
  faults w (S (S (length (calls w)))) = Some (ClientError code) ->
  fst (get_logging_status self b w) <> Ret "enabled" ->
  exists st,
    fst (get_logging_status self b w) = Ret st /\ st <> "error" /\
    fst (apply_baseline_to_bucket self b w)
    = Ret {| deny_http := false; deny_http_status := "skipped";
             access_logging := false; logging_status := st |}.
Proof.
  intros Hl Hh Hd Hs Hf0 Hf1 Hf2 Hne.
  destruct (get_logging_status_served self b w Hf0) as (st & Hg & Herr).
  exists st. rewrite Hg in *. cbn in Hne. split; [done|]. split; [done|].
  assert (Hst : String.eqb st "enabled" = false).
  { apply String.eqb_neq. congruence. }
  set (w1 := log_call (GetBucketLogging b) w) in *.
  assert (Hf1' : faults w1 (length (calls w1)) = None).
  { unfold w1. by rewrite length_calls_log_call. }
  destruct (get_logging_status_served self b w1 Hf1') as (st' & Hg' & _).
  assert (st' = st) as ->.
  { revert Hg Hg'. unfold get_logging_status, try_except,
      s3_client.get_bucket_logging, request, mbind, M_bind.
    rewrite Hf0, Hf1'. cbn. fold w1.
    destruct (loggings w !! b) as [cfg|]; cbn; [|congruence].
    destruct (_ && _); cbn; congruence. }
  unfold apply_baseline_to_bucket. rewrite Hl, Hh, Hd. cbn [negb].
  unfold mbind at 1. unfold M_bind at 1. cbn [mret M_ret].
  unfold mbind at 1. unfold M_bind at 1.
  unfold mbind at 1. unfold M_bind at 1. rewrite Hg.
  unfold mbind at 1. unfold M_bind at 1.
  assert (He : enable_access_logging self b w1
               = (Ret false,
                  log_call (PutBucketLogging b (new_logging_config self))
                    (log_call (GetBucketLogging b) w1))).
  { unfold enable_access_logging, try_except. unfold mbind at 1. unfold M_bind at 1.
    rewrite Hg'. rewrite Hs, Hd, Hst.
    assert (Hput : s3_client.put_bucket_logging b (new_logging_config self)
                     (log_call (GetBucketLogging b) w1)
                   = (Raise (ClientError code),
                      log_call (PutBucketLogging b (new_logging_config self))
                        (log_call (GetBucketLogging b) w1))).
    { unfold s3_client.put_bucket_logging, request.
      rewrite length_calls_log_call. unfold w1. rewrite length_calls_log_call.
      cbn [faults log_call]. by rewrite Hf2. }
    unfold mbind, M_bind, mret, M_ret.
    destruct (String.eqb st "enabled_other"); rewrite Hput; reflexivity. }
  rewrite He. reflexivity.
Qed.

End Logging.

(** ** The claims of the specification, one by one *)

(** C1 (the code departs from it).  A policy read that fails with
    [AccessDenied] is taken for a missing policy: in apply mode the stored
    document is replaced by a fresh one and the status is "applied"; under
    dry-run the status is "not_applied".  Neither reports "error". *)
Theorem failed_policy_read_taken_for_absent :
  apply_deny_http_policy (sample_baseline false) "my-bucket"
    (sample_account {[ "my-bucket" := policy_of [allow_read_statement] ]} ∅
       (fail_at 0 (ClientError "AccessDenied")))
  = (Ret applied,
     {| account := "123456789012"; region := "ap-northeast-1";
        buckets := ["my-bucket"; "other-bucket"; "access-logs-123456789012"];
        policies := {[ "my-bucket" := fresh_policy "my-bucket" ]};
        loggings := ∅;
        faults := fail_at 0 (ClientError "AccessDenied");
        calls := [ GetBucketPolicy "my-bucket";
                   PutBucketPolicy "my-bucket" (fresh_policy "my-bucket") ] |})
  /\
  fst (apply_deny_http_policy (sample_baseline true) "my-bucket"
         (sample_account {[ "my-bucket" := policy_of [allow_read_statement] ]} ∅
            (fail_at 0 (ClientError "AccessDenied"))))
  = Ret {| status := "not_applied"; success := false |}.
Proof.
  split.
  - rewrite (apply_deny_http_policy_failed_read _ _ _ "AccessDenied") by reflexivity.
    vm_compute. reflexivity.
  - by rewrite (apply_deny_http_policy_failed_read _ _ _ "AccessDenied").
Qed.

(** C2, as the specification words it, fails: a statement whose resource
    ARNs name another bucket is counted complete for "my-bucket", kept by
    the loop, and the document is reported "applied". *)
Lemma foreign_arn_counted_complete :
  complete_deny_http foreign_arn_statement = Ret true /\
  scan_statements [foreign_arn_statement] false [] = Ret (false, [foreign_arn_statement]) /\
  reconcile "my-bucket" (policy_of [foreign_arn_statement]) = Ret AlreadyApplied /\
  ~ spec_canonical "my-bucket" foreign_arn_statement.
Proof.
  repeat split. intros (kvs & [= <-] & _ & _ & _ & _ & Hr & _). discriminate.
Qed.

(** C2, as the code has it.  A statement is counted complete exactly when
    it has the shape [complete_shape]: the four scalar fields as in the
    canonical statement, [Resource] a list of two items whatever they are,
    and [Condition] a dict whose [Bool] entry is a dict giving
    [aws:SecureTransport] as "false".  The generator of
    [has_complete_deny_http] and the loop agree on this, and a
    deny-on-insecure-transport statement of any other shape is incomplete:
    the loop drops it and raises the flag. *)
Theorem complete_iff_complete_shape (stmt : json) :
  (complete_deny_http stmt = Ret true <-> complete_shape stmt) /\
  (is_http_deny stmt = Ret true /\ is_complete stmt = Ret true <-> complete_shape stmt) /\
  (complete_shape stmt ->
     forall hi acc, scan_statements [stmt] hi acc = Ret (hi, (acc ++ [stmt])%list)) /\
  (is_http_deny stmt = Ret true -> ~ complete_shape stmt ->
     is_complete stmt = Ret false /\
     forall hi acc, scan_statements [stmt] hi acc = Ret (true, acc)).
Proof.
  split; [apply complete_shape_iff|]. split; [apply kept_complete_shape_iff|]. split.
  - intros [Hd Hc]%kept_complete_shape_iff hi acc. cbn [scan_statements].
    rewrite Hd. cbn [mbind res_bind]. rewrite Hc. reflexivity.
  - intros Hd Hn.
    destruct (is_http_deny_Ret_obj _ _ Hd) as [kvs ->].
    destruct (is_complete_total kvs) as [[] Hc].
    + destruct Hn. apply kept_complete_shape_iff. by split.
    + split; [done|]. intros hi acc. cbn [scan_statements].
      rewrite Hd. cbn [mbind res_bind]. rewrite Hc. reflexivity.
Qed.

(** C3, as the specification words it, fails: for a bucket without a
    policy dry-run returns "not_applied" and apply mode "applied". *)
Lemma dry_run_status_differs_from_apply_status :
  fst (apply_deny_http_policy (sample_baseline true) "my-bucket"
         (sample_account ∅ ∅ no_faults))
  = Ret {| status := "not_applied"; success := false |} /\
  fst (apply_deny_http_policy (sample_baseline false) "my-bucket"
         (sample_account ∅ ∅ no_faults))
  = Ret {| status := "applied"; success := true |}.
Proof. split; reflexivity. Qed.

(** C4 (the code departs from it).  When every read of the logging
    configuration fails with [AccessDenied], the status is "error" but
    [access_logging] is [True]: under dry-run nothing more happens, and in
    apply mode the configuration is written all the same. *)
Theorem failed_logging_read_reported_as_success :
  fst (apply_baseline_to_bucket (sample_baseline true) "my-bucket"
         (sample_account ∅ ∅ (fail_from 1 (ClientError "AccessDenied"))))
  = Ret {| deny_http := false; deny_http_status := "not_applied";
           access_logging := true; logging_status := "error" |} /\
  (let out := apply_baseline_to_bucket (sample_logging_only false) "my-bucket"
                (sample_account ∅ ∅ (fail_before 2 (ClientError "AccessDenied"))) in
   fst out = Ret {| deny_http := false; deny_http_status := "skipped";
                    access_logging := true; logging_status := "enabled" |} /\
   calls (snd out)
   = [ GetBucketLogging "my-bucket"; GetBucketLogging "my-bucket";
       PutBucketLogging "my-bucket"
         {| TargetBucket := Some "access-logs-123456789012";
            TargetPrefix := Some "AWSLogs/123456789012/S3/" |};
       GetBucketLogging "my-bucket" ]).
Proof. repeat split. Qed.

(** C7. With both [--http-only] and [--logging-only], [main] exits with
    status 2 from the state it started in: no request has been made, no
    object built, no bucket processed. *)
Theorem both_only_flags_rejected args w :
  Args.http_only args = true ->
  Args.logging_only args = true ->
  main args w = (SystemExit 2, w).
Proof. intros Hh Hl. unfold main. by rewrite Hh, Hl. Qed.

(** C9. In the all-buckets run, a bucket whose processing raises an
    instance of [Exception] is recorded with both statuses "error" and
    both flags false, and the loop goes on with the remaining buckets in
    the order of the enumeration, from the state the failed attempt left.
    Unless a request is interrupted from the keyboard the run reaches its
    end, with an entry for every remaining bucket, and the "error" entry
    stands unless the same name comes again. *)
Theorem failing_bucket_recorded_and_skipped
    self w pre name post self' w0 results1 w1 e w2 :
  get_all_buckets self w = (Ret ((pre ++ name :: post)%list, self'), w0) ->
  process_buckets self' pre ∅ w0 = (Ret results1, w1) ->
  apply_baseline_to_bucket self' name w1 = (Raise e, w2) ->
  is_Exception e = true ->
  process_buckets self' (pre ++ name :: post) ∅ w0
  = process_buckets self' post (<[name := error_results]> results1) w2
  /\
  (uninterrupted w2 ->
   exists final w3,
     apply_baseline_to_all_buckets self w = (Ret (final, self'), w3) /\
     (forall k, k ∈ post -> is_Some (final !! k)) /\
     (name ∉ post -> final !! name = Some error_results)).
Proof.
  intros Hall Hpre Hb He.
  assert (Heq : process_buckets self' (pre ++ name :: post) ∅ w0
                = process_buckets self' post (<[name := error_results]> results1) w2).
  { rewrite process_buckets_app, Hpre. by apply (process_buckets_raise _ _ _ _ _ e). }
  split; [exact Heq|]. intros Hw2.
  destruct (process_buckets_total self' post (<[name := error_results]> results1) w2 Hw2)
    as (final & w3 & Hp).
  exists final, w3. split.
  - rewrite (apply_baseline_to_all_buckets_eq _ _ _ _ _ Hall) by by destruct pre.
    by rewrite Heq, Hp.
  - apply process_buckets_lookup in Hp as [Hin Hout]. split; [done|].
    intros Hn. rewrite (Hout _ Hn). apply lookup_insert_eq.
Qed.

(** ** The statements at sample inputs *)

Lemma apply_deny_http_policy_idempotent_witness :
  apply_deny_http_policy (sample_baseline true) "my-bucket"
    (snd (apply_deny_http_policy (sample_baseline false) "my-bucket" drifted_account))
  = (Ret applied,
     log_call (GetBucketPolicy "my-bucket")
       (snd (apply_deny_http_policy (sample_baseline false) "my-bucket" drifted_account))).
Proof.
  apply (apply_deny_http_policy_idempotent
           (sample_baseline false) (sample_baseline true) "my-bucket"
           drifted_account applied).
  - vm_compute. reflexivity.
  - reflexivity.
  - reflexivity.
Defined.

(** The four starting states named by the specification: each first run
    in apply mode ends "applied", with the document the second run reads. *)
Example first_runs_end_applied :
  Forall (fun ps =>
            fst (apply_deny_http_policy (sample_baseline false) "my-bucket"
                   (sample_account ps ∅ no_faults)) = Ret applied)
    [ ∅;
      {[ "my-bucket" := policy_of [allow_read_statement] ]};
      {[ "my-bucket" := policy_of [create_deny_http_statement "my-bucket"] ]};
      {[ "my-bucket" := policy_of [incomplete_statement] ]} ].
Proof. repeat constructor. Qed.

(** The rewrite of the drifted document keeps the unrelated statement,
    drops the incomplete one and appends the canonical one. *)
Example drifted_document_rewritten :
  reconcile "my-bucket" (policy_of [allow_read_statement; incomplete_statement])
  = Ret (Rewrite "needs_change"
           (policy_of [allow_read_statement; create_deny_http_statement "my-bucket"])).
Proof. reflexivity. Qed.

Lemma dry_run_status_and_apply_status_witness :
  ({| status := "needs_change"; success := false |} = applied /\
   apply_deny_http_policy (sample_baseline false) "my-bucket" drifted_account
   = (Ret {| status := "needs_change"; success := false |},
      log_call (GetBucketPolicy "my-bucket") drifted_account))
  \/
  ((status {| status := "needs_change"; success := false |} = "not_applied" \/
    status {| status := "needs_change"; success := false |} = "needs_change") /\
   success {| status := "needs_change"; success := false |} = false /\
   exists policy',
     let w2 := log_call (PutBucketPolicy "my-bucket" policy')
                 (log_call (GetBucketPolicy "my-bucket") drifted_account) in
     apply_deny_http_policy (sample_baseline false) "my-bucket" drifted_account =
     match faults drifted_account (S (length (calls drifted_account))) with
     | None =>
         (Ret applied,
          set_policies (<["my-bucket" := policy']> (policies drifted_account)) w2)
     | Some (ClientError _) => (Ret {| status := "error"; success := false |}, w2)
     | Some e => (Raise e, w2)
     end).
Proof.
  apply (dry_run_status_and_apply_status
           (sample_baseline true) (sample_baseline false) "my-bucket" drifted_account).
  - reflexivity.
  - reflexivity.
  - vm_compute. reflexivity.
Defined.

Lemma malformed_condition_raises_witness :
  apply_deny_http_policy (sample_baseline true) "my-bucket" malformed_account
  = (Raise AttributeError, log_call (GetBucketPolicy "my-bucket") malformed_account).
Proof.
  apply (malformed_condition_raises (sample_baseline true) "my-bucket" malformed_account
           [ ("Version", JStr "2012-10-17");
             ("Statement", JList [allow_read_statement; malformed_statement]) ]
           [allow_read_statement; malformed_statement] malformed_statement).
  - reflexivity.
  - vm_compute. reflexivity.
  - reflexivity.
  - right. left.
  - eexists _, (JStr "aws:SecureTransport").
    split; [reflexivity|]. split; [reflexivity|]. split; [reflexivity|].
    left. reflexivity.
Defined.

Lemma dry_run_writes_nothing_witness :
  policies (snd (apply_baseline_to_bucket (sample_baseline true) "my-bucket"
                   drifted_account)) = policies drifted_account /\
  loggings (snd (apply_baseline_to_bucket (sample_baseline true) "my-bucket"
                   drifted_account)) = loggings drifted_account /\
  exists cs,
    calls (snd (apply_baseline_to_bucket (sample_baseline true) "my-bucket"
                  drifted_account)) = (calls drifted_account ++ cs)%list /\
    Forall (fun c => is_write c = false) cs.
Proof.
  apply (dry_run_writes_nothing (sample_baseline true) "my-bucket" drifted_account).
  reflexivity.
Defined.

(** What the dry run on that bucket reports, and the requests it makes. *)
Example dry_run_reports :
  fst (apply_baseline_to_bucket (sample_baseline true) "my-bucket" drifted_account)
  = Ret {| deny_http := false; deny_http_status := "needs_change";
           access_logging := true; logging_status := "enabled_other" |} /\
  calls (snd (apply_baseline_to_bucket (sample_baseline true) "my-bucket"
                drifted_account))
  = [ GetBucketPolicy "my-bucket"; GetBucketLogging "my-bucket";
      GetBucketLogging "my-bucket" ].
Proof. split; reflexivity. Qed.

(** The same bucket in apply mode: both stores change. *)
Example apply_mode_writes :
  apply_baseline_to_bucket (sample_baseline false) "my-bucket" drifted_account
  = (Ret {| deny_http := true; deny_http_status := "applied";
            access_logging := true; logging_status := "enabled" |},
     {| account := "123456789012"; region := "ap-northeast-1";
        buckets := ["my-bucket"; "other-bucket"; "access-logs-123456789012"];
        policies :=
          {[ "my-bucket" :=
               policy_of [allow_read_statement; create_deny_http_statement "my-bucket"] ]};
        loggings := {[ "my-bucket" := new_logging_config (sample_baseline false) ]};
        faults := no_faults;
        calls :=
          [ GetBucketPolicy "my-bucket";
            PutBucketPolicy "my-bucket"
              (policy_of [allow_read_statement; create_deny_http_statement "my-bucket"]);
            GetBucketLogging "my-bucket";
            GetBucketLogging "my-bucket";
            PutBucketLogging "my-bucket" (new_logging_config (sample_baseline false));
            GetBucketLogging "my-bucket" ] |}).
Proof. vm_compute. reflexivity. Qed.

Lemma both_only_flags_rejected_witness :
  main conflicting_args drifted_account = (SystemExit 2, drifted_account).
Proof.
  apply (both_only_flags_rejected conflicting_args drifted_account).
  - reflexivity.
  - reflexivity.
Defined.

Lemma exclusion_only_when_enumerating_witness :
  fst (main (sample_args (Some "my-bucket") (Some ["my-bucket"]))
         (sample_account ∅ ∅ no_faults))
  = Reported {[ "my-bucket" := not_applied_results ]} /\
  forall results w',
    main (sample_args None (Some ["my-bucket"])) (sample_account ∅ ∅ no_faults)
    = (Reported results, w') ->
    results !! "my-bucket" = None.
Proof.
  destruct (exclusion_only_when_enumerating
              (sample_args None (Some ["my-bucket"])) "my-bucket"
              (sample_account ∅ ∅ no_faults)
              {| dry_run := true; exclude_buckets := ["my-bucket"];
                 show_policy := false; show_logging := false;
                 http_only := false; logging_only := false;
                 account_id := "123456789012" |}
              (log_call (HeadBucket "access-logs-123456789012")
                 (log_call GetCallerIdentity (sample_account ∅ ∅ no_faults)))
              not_applied_results
              (snd (main (sample_args (Some "my-bucket") (Some ["my-bucket"]))
                      (sample_account ∅ ∅ no_faults))))
    as [Hexplicit Hall].
  - discriminate.
  - left. left.
  - reflexivity.
  - vm_compute. reflexivity.
  - vm_compute. reflexivity.
  - split; [|exact Hall].
    change (with_bucket (Some "my-bucket") (sample_args None (Some ["my-bucket"])))
      with (sample_args (Some "my-bucket") (Some ["my-bucket"])) in Hexplicit.
    rewrite Hexplicit. reflexivity.
Defined.

(** Enumeration on the same account and arguments: the other bucket is
    reported, the excluded one and the log bucket are not. *)
Example enumeration_skips_excluded :
  fst (main (sample_args None (Some ["my-bucket"])) (sample_account ∅ ∅ no_faults))
  = Reported {[ "other-bucket" := not_applied_results ]}.
Proof. vm_compute. reflexivity. Qed.

Lemma failing_bucket_recorded_and_skipped_witness :
  process_buckets enumerating_baseline ["my-bucket"; "other-bucket"] ∅
    (log_call ListBuckets malformed_account)
  = process_buckets enumerating_baseline ["other-bucket"]
      (<["my-bucket" := error_results]> ∅)
      (log_call (GetBucketPolicy "my-bucket") (log_call ListBuckets malformed_account))
  /\
  (uninterrupted
     (log_call (GetBucketPolicy "my-bucket") (log_call ListBuckets malformed_account)) ->
   exists final w3,
     apply_baseline_to_all_buckets (sample_baseline true) malformed_account
     = (Ret (final, enumerating_baseline), w3) /\
     (forall k, k ∈ ["other-bucket"] -> is_Some (final !! k)) /\
     ("my-bucket" ∉ ["other-bucket"] -> final !! "my-bucket" = Some error_results)).
Proof.
  apply (failing_bucket_recorded_and_skipped (sample_baseline true) malformed_account
           [] "my-bucket" ["other-bucket"] enumerating_baseline
           (log_call ListBuckets malformed_account) ∅
           (log_call ListBuckets malformed_account) AttributeError).
  - vm_compute. reflexivity.
  - reflexivity.
  - vm_compute. reflexivity.
  - reflexivity.
Defined.

(** The batch on that account: the failed bucket is recorded as "error"
    and the next one is processed. *)
Example batch_after_failure :
  fst (apply_baseline_to_all_buckets (sample_baseline true) malformed_account)
  = Ret (<["other-bucket" := not_applied_results]>
           (<["my-bucket" := error_results]> ∅),
         enumerating_baseline).
Proof. vm_compute. reflexivity. Qed.

(** * Further properties *)

Set Warnings "-clear-no-such-hyp".

(** ** What the methods return and what they let through *)

Section Outcomes.

Lemma ensures_ret {A} (P : A -> Prop) a : P a -> ensures P (mret a).
Proof. intros Ha w a' [= <-]. exact Ha. Qed.

Lemma ensures_bind {A B} (Q : A -> Prop) (P : B -> Prop) (m : M A) (f : A -> M B) :
  ensures Q m -> (forall a, Q a -> ensures P (f a)) -> ensures P (m ≫= f).
Proof.
  intros Hm Hf w b. unfold mbind, M_bind. specialize (Hm w).
  destruct (m w) as [[a|e] w1]; cbn in *; [|discriminate].
  apply (Hf a (Hm a eq_refl) w1).
Qed.

Lemma ensures_try_except {A} (P : A -> Prop) (body : M A) catches handler :
  ensures P body -> (forall e, catches e = true -> ensures P (handler e)) ->
  ensures P (try_except body catches handler).
Proof.
  intros Hm Hh w a. unfold try_except. specialize (Hm w).
  destruct (body w) as [[a'|e] w1]; cbn in *; [by intros [= <-]; auto|].
  destruct (catches e) eqn:Hc; [apply (Hh e Hc w1) | discriminate].
Qed.

Lemma ensures_weaken {A} (P Q : A -> Prop) (m : M A) :
  ensures P m -> (forall a, P a -> Q a) -> ensures Q m.
Proof. intros Hm HPQ w a Ha. eauto. Qed.

Lemma no_ClientError_ret {A} (a : A) : no_ClientError (mret a).
Proof. intros w e. discriminate. Qed.

Lemma no_ClientError_bind {A B} (m : M A) (f : A -> M B) :
  no_ClientError m -> (forall a, no_ClientError (f a)) -> no_ClientError (m ≫= f).
Proof.
  intros Hm Hf w e. unfold mbind, M_bind. specialize (Hm w).
  destruct (m w) as [[a|e'] w1]; cbn in *; [apply Hf|].
  intros [= <-]. by apply Hm.
Qed.

(** A handler for [ClientError] lets none through, whatever the body. *)
Lemma no_ClientError_try_except {A} (body : M A) handler :
  (forall e, is_ClientError e = true -> no_ClientError (handler e)) ->
  no_ClientError (try_except body is_ClientError handler).
Proof.
  intros Hh w e. unfold try_except.
  destruct (body w) as [[a|e'] w1]; cbn; [discriminate|].
  destruct (is_ClientError e') eqn:Hc; [apply (Hh e' Hc w1)|].
  by intros [= <-].
Qed.

Lemma ensures_get_logging_status self b :
  ensures (fun st => st ∈ logging_statuses) (get_logging_status self b).
Proof.
  unfold get_logging_status. apply ensures_try_except.
  - intros w a. unfold mbind, M_bind, s3_client.get_bucket_logging, request.
    destruct (faults w (length (calls w))); cbn; [discriminate|].
    destruct (loggings _ !! b) as [cfg|]; cbn.
    + destruct (_ && _); intros [= <-]; set_solver.
    + intros [= <-]. set_solver.
  - intros e _. apply ensures_ret. set_solver.
Qed.

Lemma no_ClientError_get_logging_status self b :
  no_ClientError (get_logging_status self b).
Proof.
  apply no_ClientError_try_except. intros e _. apply no_ClientError_ret.
Qed.

Lemma no_ClientError_enable_access_logging self b :
  no_ClientError (enable_access_logging self b).
Proof.
  apply no_ClientError_try_except. intros e _. apply no_ClientError_ret.
Qed.

Lemma no_ClientError_apply_deny_http_policy self b :
  no_ClientError (apply_deny_http_policy self b).
Proof.
  apply no_ClientError_try_except. intros e _. apply no_ClientError_ret.
Qed.

Lemma ensures_apply_deny_http_policy self b :
  ensures (policy_result_ok (dry_run self)) (apply_deny_http_policy self b).
Proof.
  intros w r. unfold policy_result_ok.
  destruct (get_bucket_policy self b w) as [[policy|e] w0] eqn:Hg.
  2:{ rewrite (apply_deny_http_policy_unread _ _ _ _ _ Hg). discriminate. }
  rewrite (apply_deny_http_policy_read _ _ _ _ _ Hg).
  destruct (reconcile b policy) as [[|st p']|e] eqn:Hr; cbn; [| |discriminate].
  - intros [= <-]. cbn. split; [set_solver|]. split; [done|]. discriminate.
  - apply reconcile_Rewrite_status in Hr.
    destruct (dry_run self); cbn.
    + intros [= <-]. cbn.
      destruct Hr; subst st; (split; [set_solver|]); split; done.
    + destruct (faults w0 (length (calls w0))) as [[]|]; cbn; try discriminate;
        intros [= <-]; cbn; (split; [set_solver|]); split; done.
Qed.

End Outcomes.

Section Results.

Lemma ensures_apply_baseline_to_bucket self b :
  ensures (bucket_results_ok self) (apply_baseline_to_bucket self b).
Proof.
  unfold apply_baseline_to_bucket.
  eapply (ensures_bind
            (fun http : bool * string =>
               snd http ∈ "skipped" :: deny_http_statuses /\
               (snd http = "skipped" <-> logging_only self = true) /\
               (fst http = true <-> snd http = "applied"))).
  { destruct (logging_only self); cbn.
    - apply ensures_ret. cbn. split; [set_solver|]. split; done.
    - eapply ensures_bind; [apply ensures_apply_deny_http_policy|].
      intros r (Hs & Hok & _). apply ensures_ret. cbn.
      split; [set_solver|]. split; [|done]. split; [|done].
      intros Hsk. rewrite Hsk in Hs. set_solver. }
  intros http (Hh1 & Hh2 & Hh3).
  eapply (ensures_bind
            (fun logs : bool * string =>
               snd logs ∈ "skipped" :: logging_statuses /\
               (snd logs = "skipped" <-> http_only self = true) /\
               (http_only self = true -> fst logs = false))).
  { destruct (http_only self); cbn.
    - apply ensures_ret. cbn. split; [set_solver|]. split; done.
    - assert (Hst : forall (a : bool) (st : string),
                 st ∈ logging_statuses ->
                 st ∈ "skipped" :: logging_statuses /\
                 (st = "skipped" <-> false = true) /\ (false = true -> a = false)).
      { intros a st Hs. split; [set_solver|]. split; [|done]. split; [|done].
        intros ->. set_solver. }
      eapply ensures_bind; [apply ensures_get_logging_status|].
      intros st Hs.
      eapply (ensures_bind (fun _ => True)); [done|]. intros ok _.
      destruct (negb (dry_run self) && ok).
      + eapply ensures_bind; [apply ensures_get_logging_status|].
        intros st' Hs'. apply ensures_ret. cbn. by apply Hst.
      + apply ensures_ret. cbn. by apply Hst. }
  intros logs (Hl1 & Hl2 & Hl3). apply ensures_ret.
  unfold bucket_results_ok. cbn. repeat split; tauto.
Qed.

Lemma no_ClientError_apply_baseline_to_bucket self b :
  no_ClientError (apply_baseline_to_bucket self b).
Proof.
  unfold apply_baseline_to_bucket.
  apply no_ClientError_bind.
  { destruct (negb (logging_only self)); [|apply no_ClientError_ret].
    apply no_ClientError_bind; [apply no_ClientError_apply_deny_http_policy|].
    intros r. apply no_ClientError_ret. }
  intros http. apply no_ClientError_bind; [|intros; apply no_ClientError_ret].
  destruct (negb (http_only self)); [|apply no_ClientError_ret].
  apply no_ClientError_bind; [apply no_ClientError_get_logging_status|].
  intros st. apply no_ClientError_bind; [apply no_ClientError_enable_access_logging|].
  intros ok. destruct (negb (dry_run self) && ok); [|apply no_ClientError_ret].
  apply no_ClientError_bind; [apply no_ClientError_get_logging_status|].
  intros st'. apply no_ClientError_ret.
Qed.

(** X1. Whatever the stored policy and whichever requests fail,
    [apply_deny_http_policy] returns a record whose status is one of
    "applied", "needs_change", "not_applied", "error", whose [success] is
    [True] exactly when the status is "applied", and whose status is never
    "error" under dry-run; and it never lets a [ClientError] escape. *)
Theorem apply_deny_http_policy_outcome self bucket_name w :
  match fst (apply_deny_http_policy self bucket_name w) with
  | Ret r => policy_result_ok (dry_run self) r
  | Raise e => is_ClientError e = false
  end.
Proof.
  pose proof (ensures_apply_deny_http_policy self bucket_name w) as Hr.
  pose proof (no_ClientError_apply_deny_http_policy self bucket_name w) as He.
  destruct (fst (apply_deny_http_policy self bucket_name w)); auto.
Qed.

(** X2. The results of [apply_baseline_to_bucket] never keep the initial
    "unknown": each status is one of the known ones, "skipped" stands
    exactly for the control switched off by [--logging-only] or
    [--http-only], [deny_http] is [True] exactly with status "applied",
    and [access_logging] is [False] when logging is skipped.  No
    [ClientError] escapes the method. *)
Theorem apply_baseline_to_bucket_outcome self bucket_name w :
  match fst (apply_baseline_to_bucket self bucket_name w) with
  | Ret r => bucket_results_ok self r
  | Raise e => is_ClientError e = false
  end.
Proof.
  pose proof (ensures_apply_baseline_to_bucket self bucket_name w) as Hr.
  pose proof (no_ClientError_apply_baseline_to_bucket self bucket_name w) as He.
  destruct (fst (apply_baseline_to_bucket self bucket_name w)); auto.
Qed.

End Results.

(** ** Processing a bucket touches that bucket only *)

Section Confinement.

Lemma confined_refl b w : confined b w w.
Proof.
  repeat split. exists []. by rewrite app_nil_r.
Qed.

Lemma confined_trans b w1 w2 w3 :
  confined b w1 w2 -> confined b w2 w3 -> confined b w1 w3.
Proof.
  intros (Hb & Hf & Ho & cs & Hc & Hn) (Hb' & Hf' & Ho' & cs' & Hc' & Hn').
  split; [congruence|]. split; [congruence|]. split.
  - intros b' Hne. destruct (Ho b' Hne), (Ho' b' Hne). split; congruence.
  - exists (cs ++ cs')%list. split; [by rewrite Hc', Hc, <- app_assoc|].
    by apply Forall_app.
Qed.

Lemma confined_to_ret {A} b (a : A) : confined_to b (mret a).
Proof. intros w. apply confined_refl. Qed.

Lemma confined_to_lift {A} b (r : res A) : confined_to b (lift r).
Proof. intros w. apply confined_refl. Qed.

Lemma confined_to_bind {A B} b (m : M A) (f : A -> M B) :
  confined_to b m -> (forall a, confined_to b (f a)) -> confined_to b (m ≫= f).
Proof.
  intros Hm Hf w. unfold mbind, M_bind. specialize (Hm w).
  destruct (m w) as [[a|e] w1]; cbn in *; [|done].
  eapply confined_trans; [exact Hm | apply Hf].
Qed.

Lemma confined_to_try_except {A} b (body : M A) catches handler :
  confined_to b body -> (forall e, confined_to b (handler e)) ->
  confined_to b (try_except body catches handler).
Proof.
  intros Hm Hh w. unfold try_except. specialize (Hm w).
  destruct (body w) as [[a|e] w1]; cbn in *; [done|].
  destruct (catches e); cbn; [|done].
  eapply confined_trans; [exact Hm | apply Hh].
Qed.

Lemma confined_to_request {A} b c (serve : world -> res A * world) :
  call_bucket c = Some b ->
  (forall w, confined b w (snd (serve w))) ->
  confined_to b (request c serve).
Proof.
  intros Hc Hs w. unfold request.
  assert (Hlog : confined b w (log_call c w)).
  { repeat split. exists [c]. split; [done|]. by constructor. }
  destruct (faults w (length (calls w))); cbn; [done|].
  eapply confined_trans; [exact Hlog | apply Hs].
Qed.

Lemma confined_set_policies b policy w :
  confined b w (set_policies (<[b := policy]> (policies w)) w).
Proof.
  split; [done|]. split; [done|]. split.
  - intros b' Hne. cbn. by rewrite lookup_insert_ne.
  - exists []. by rewrite app_nil_r.
Qed.

Lemma confined_set_loggings b cfg w :
  confined b w (set_loggings (<[b := cfg]> (loggings w)) w).
Proof.
  split; [done|]. split; [done|]. split.
  - intros b' Hne. cbn. by rewrite lookup_insert_ne.
  - exists []. by rewrite app_nil_r.
Qed.

Lemma confined_to_s3_get_bucket_policy b :
  confined_to b (s3_client.get_bucket_policy b).
Proof.
  apply confined_to_request; [done|]. intros w.
  destruct (policies w !! b); apply confined_refl.
Qed.

Lemma confined_to_put_bucket_policy b policy :
  confined_to b (s3_client.put_bucket_policy b policy).
Proof.
  apply confined_to_request; [done|]. intros w. apply confined_set_policies.
Qed.

Lemma confined_to_get_bucket_logging b :
  confined_to b (s3_client.get_bucket_logging b).
Proof.
  apply confined_to_request; [done|]. intros w. apply confined_refl.
Qed.

Lemma confined_to_put_bucket_logging b cfg :
  confined_to b (s3_client.put_bucket_logging b cfg).
Proof.
  apply confined_to_request; [done|]. intros w. apply confined_set_loggings.
Qed.

Create HintDb confined.

#[local] Hint Resolve confined_to_ret confined_to_lift
  confined_to_s3_get_bucket_policy confined_to_put_bucket_policy
  confined_to_get_bucket_logging confined_to_put_bucket_logging : confined.

Ltac confined :=
  repeat first
    [ solve [auto with confined]
    | apply confined_to_bind
    | apply confined_to_try_except
    | match goal with
      | |- forall _, _ => intro
      | |- confined_to _ (if ?b then _ else _) => destruct b
      | |- confined_to _ (match ?x with _ => _ end) => destruct x
      end ].

Lemma confined_to_apply_baseline_to_bucket self b :
  confined_to b (apply_baseline_to_bucket self b).
Proof.
  unfold apply_baseline_to_bucket, apply_deny_http_policy, get_bucket_policy,
    enable_access_logging, get_logging_status.
  confined.
Qed.

(** X3. In either mode, whatever the outcome, processing one bucket makes
    requests that name that bucket only, leaves the list of buckets as it
    was, and leaves the policy and the logging configuration of every
    other bucket as they were. *)
Theorem apply_baseline_to_bucket_confined self bucket_name w :
  buckets (snd (apply_baseline_to_bucket self bucket_name w)) = buckets w /\
  (forall other, other <> bucket_name ->
     policies (snd (apply_baseline_to_bucket self bucket_name w)) !! other
     = policies w !! other /\
     loggings (snd (apply_baseline_to_bucket self bucket_name w)) !! other
     = loggings w !! other) /\
  exists cs,
    calls (snd (apply_baseline_to_bucket self bucket_name w)) = (calls w ++ cs)%list /\
    Forall (fun c => call_bucket c = Some bucket_name) cs.
Proof.
  destruct (confined_to_apply_baseline_to_bucket self bucket_name w)
    as (Hb & _ & Ho & Hc).
  auto.
Qed.

End Confinement.

(** ** The logging reconciler: reading back what was written *)

Section LoggingRoundTrip.

Lemma opt_eq_str_true o s : s <> "" -> opt_eq_str o s = true -> o = Some s.
Proof.
  unfold opt_eq_str. intros Hs H. apply String.eqb_eq in H.
  destruct o; cbn in H; congruence.
Qed.

Lemma log_bucket_name_nonempty a : log_bucket_name a <> "".
Proof. discriminate. Qed.

Lemma expected_prefix_nonempty a : expected_prefix a <> "".
Proof. discriminate. Qed.

(** The status read from a served request, and what "enabled" means. *)
Lemma get_logging_status_inv self b w r w1 :
  get_logging_status self b w = (r, w1) ->
  w1 = log_call (GetBucketLogging b) w /\
  (r = Ret "enabled" -> loggings w !! b = Some (new_logging_config self)).
Proof.
  unfold get_logging_status, try_except, s3_client.get_bucket_logging, request,
    mbind, M_bind.
  destruct (faults w (length (calls w))) as [[]|]; cbn;
    try (intros [= <- <-]; split; [done | discriminate]).
  destruct (loggings w !! b) as [[tb tp]|] eqn:Hl; cbn.
  - destruct (default "" tb =? log_bucket_name (account_id self)) eqn:Hb; cbn.
    + destruct (default "" tp =? expected_prefix (account_id self)) eqn:Hp; cbn;
        intros [= <- <-];
        (split; [done|]); [|discriminate].
      intros _. unfold new_logging_config.
      apply opt_eq_str_true in Hb; [|apply log_bucket_name_nonempty].
      apply opt_eq_str_true in Hp; [|apply expected_prefix_nonempty].
      by subst.
    + intros [= <- <-]. split; [done | discriminate].
  - intros [= <- <-]. split; [done | discriminate].
Qed.

Lemma get_logging_status_enabled self b w :
  faults w (length (calls w)) = None ->
  loggings w !! b = Some (new_logging_config self) ->
  get_logging_status self b w = (Ret "enabled", log_call (GetBucketLogging b) w).
Proof.
  intros Hf Hl.
  unfold get_logging_status, try_except, s3_client.get_bucket_logging, request,
    mbind, M_bind.
  rewrite Hf. cbn. rewrite Hl. cbn. unfold opt_eq_str. cbn.
  by rewrite !String.eqb_refl.
Qed.

Lemma peek_logging_read_only self b : pure_reader (peek_logging self b).
Proof.
  unfold peek_logging. destruct (show_logging self); [|apply pure_reader_ret].
  apply pure_reader_try_except; [|intros; apply pure_reader_ret].
  apply pure_reader_bind; [apply pure_reader_get_bucket_logging|].
  intros; apply pure_reader_ret.
Qed.

Lemma no_ClientError_peek_logging self b : no_ClientError (peek_logging self b).
Proof.
  unfold peek_logging. destruct (show_logging self); [|apply no_ClientError_ret].
  apply no_ClientError_try_except. intros; apply no_ClientError_ret.
Qed.

(** [enable_access_logging] by cases: the status read, the optional
    second read, then the branch taken. *)
Lemma enable_access_logging_eq self b w :
  enable_access_logging self b w =
  match get_logging_status self b w with
  | (Raise e, w0) => (Raise e, w0)
  | (Ret st, w0) =>
      match peek_logging self b w0 with
      | (Raise e, w1) => (Raise e, w1)
      | (Ret _, w1) =>
          if String.eqb st "enabled" || dry_run self then (Ret true, w1)
          else
            let w2 := log_call (PutBucketLogging b (new_logging_config self)) w1 in
            match faults w1 (length (calls w1)) with
            | None =>
                (Ret true,
                 set_loggings (<[b := new_logging_config self]> (loggings w1)) w2)
            | Some (ClientError _) => (Ret false, w2)
            | Some e => (Raise e, w2)
            end
      end
  end.
Proof.
  unfold enable_access_logging. unfold try_except at 1.
  unfold mbind at 1. unfold M_bind at 1.
  pose proof (no_ClientError_get_logging_status self b w) as H0.
  destruct (get_logging_status self b w) as [[st|e] w0]; cbn in H0; cbv beta iota.
  2:{ specialize (H0 e eq_refl). by destruct e. }
  unfold mbind at 1. unfold M_bind at 1. fold (peek_logging self b).
  pose proof (no_ClientError_peek_logging self b w0) as H1.
  destruct (peek_logging self b w0) as [[[]|e] w1]; cbn in H1; cbv beta iota.
  2:{ specialize (H1 e eq_refl). by destruct e. }
  destruct (String.eqb st "enabled"); cbn [orb]; [done|].
  assert (Hput : (s3_client.put_bucket_logging b (new_logging_config self);; mret true) w1
                 = match faults w1 (length (calls w1)) with
                   | None =>
                       (Ret true,
                        set_loggings (<[b := new_logging_config self]> (loggings w1))
                          (log_call (PutBucketLogging b (new_logging_config self)) w1))
                   | Some e =>
                       (Raise e, log_call (PutBucketLogging b (new_logging_config self)) w1)
                   end).
  { unfold mbind, M_bind, s3_client.put_bucket_logging, request.
    by destruct (faults w1 (length (calls w1))). }
  destruct (String.eqb st "enabled_other"), (dry_run self); cbn; try done;
    rewrite Hput; by destruct (faults w1 (length (calls w1))) as [[]|].
Qed.

(** After [enable_access_logging] has returned [True] in apply mode the
    stored configuration is the canonical one. *)
Lemma enable_access_logging_stored self b w w1 :
  dry_run self = false ->
  enable_access_logging self b w = (Ret true, w1) ->
  loggings w1 !! b = Some (new_logging_config self).
Proof.
  intros Hd. rewrite enable_access_logging_eq, Hd.
  destruct (get_logging_status self b w) as [[st|e] w0] eqn:Hg; [|discriminate].
  apply get_logging_status_inv in Hg as [-> Hen].
  pose proof (peek_logging_read_only self b (log_call (GetBucketLogging b) w)) as Hp.
  destruct (peek_logging self b _) as [[[]|e] w2]; [|discriminate].
  destruct Hp as (_ & _ & Hl & _). cbn in Hl.
  destruct (String.eqb st "enabled") eqn:Hst; cbn.
  - intros [= <-]. rewrite Hl. apply Hen. f_equal. by apply String.eqb_eq.
  - destruct (faults w2 (length (calls w2))) as [[]|]; try discriminate.
    intros [= <-]. cbn. apply lookup_insert_eq.
Qed.

End LoggingRoundTrip.

Section LoggingProperties.

(** X4. Round trip of the logging configuration: once
    [enable_access_logging] has returned [True] in apply mode, the stored
    configuration of the bucket is the canonical one (target bucket
    [access-logs-<account>], prefix [AWSLogs/<account>/S3/]), and a served
    [get_logging_status] reads it back as "enabled". *)
Theorem enable_access_logging_reads_back self bucket_name w w1 :
  dry_run self = false ->
  enable_access_logging self bucket_name w = (Ret true, w1) ->
  faults w1 (length (calls w1)) = None ->
  loggings w1 !! bucket_name = Some (new_logging_config self) /\
  get_logging_status self bucket_name w1
  = (Ret "enabled", log_call (GetBucketLogging bucket_name) w1).
Proof.
  intros Hd He Hf.
  pose proof (enable_access_logging_stored _ _ _ _ Hd He) as Hl.
  split; [exact Hl|]. by apply get_logging_status_enabled.
Qed.

(** X5. Idempotence of the logging reconciler: after a run that returned
    [True] in apply mode, a further run for the same account, in either
    mode, whose status read is served makes no write and returns [True]
    (or is cut short by an error other than [ClientError] in the read made
    for display). *)
Theorem enable_access_logging_idempotent self self' bucket_name w w1 :
  dry_run self = false ->
  enable_access_logging self bucket_name w = (Ret true, w1) ->
  account_id self' = account_id self ->
  faults w1 (length (calls w1)) = None ->
  read_only w1 (snd (enable_access_logging self' bucket_name w1)) /\
  match fst (enable_access_logging self' bucket_name w1) with
  | Ret ok => ok = true
  | Raise e => is_ClientError e = false
  end.
Proof.
  intros Hd He Ha Hf.
  pose proof (enable_access_logging_stored _ _ _ _ Hd He) as Hl.
  assert (Hcfg : new_logging_config self' = new_logging_config self)
    by (unfold new_logging_config; by rewrite Ha).
  rewrite <- Hcfg in Hl.
  rewrite enable_access_logging_eq.
  rewrite (get_logging_status_enabled self' bucket_name w1 Hf Hl).
  pose proof (peek_logging_read_only self' bucket_name
                (log_call (GetBucketLogging bucket_name) w1)) as Hp.
  pose proof (no_ClientError_peek_logging self' bucket_name
                (log_call (GetBucketLogging bucket_name) w1)) as Hn.
  assert (Hr : read_only w1 (log_call (GetBucketLogging bucket_name) w1))
    by by apply read_only_log_call.
  destruct (peek_logging self' bucket_name _) as [[[]|e] w2]; cbn in *.
  - split; [eauto using read_only_trans | done].
  - split; [eauto using read_only_trans | auto].
Qed.

(** X6. Under dry-run [enable_access_logging] reports success whenever
    it returns: [True] for a bucket already configured, for one that would
    be changed, and also when the configuration could not be read. *)
Theorem dry_run_enable_access_logging_true self bucket_name w :
  dry_run self = true ->
  match fst (enable_access_logging self bucket_name w) with
  | Ret ok => ok = true
  | Raise e => is_ClientError e = false
  end.
Proof.
  intros Hd. rewrite enable_access_logging_eq, Hd.
  pose proof (no_ClientError_get_logging_status self bucket_name w) as H0.
  destruct (get_logging_status self bucket_name w) as [[st|e] w0]; cbn in *; [|auto].
  pose proof (no_ClientError_peek_logging self bucket_name w0) as H1.
  destruct (peek_logging self bucket_name w0) as [[[]|e] w1]; cbn in *; [|auto].
  by rewrite orb_true_r.
Qed.

(** X7. In apply mode a bucket whose logging is reported successful has
    the canonical configuration stored, and its reported status is the
    one re-read after the change: "enabled", or "error" when that last
    read failed; never the stale "disabled" or "enabled_other". *)
Theorem apply_mode_logging_status self bucket_name w r w' :
  dry_run self = false ->
  http_only self = false ->
  apply_baseline_to_bucket self bucket_name w = (Ret r, w') ->
  access_logging r = true ->
  loggings w' !! bucket_name = Some (new_logging_config self) /\
  (logging_status r = "enabled" \/ logging_status r = "error").
Proof.
  intros Hd Hh. unfold apply_baseline_to_bucket. rewrite Hd, Hh. cbn [negb].
  unfold mbind at 1. unfold M_bind at 1.
  match goal with
  | |- context [(if negb (logging_only self) then ?a else ?b) w] =>
      destruct ((if negb (logging_only self) then a else b) w) as [[http|e] wh];
        [|discriminate]
  end.
  unfold mbind at 1. unfold M_bind at 1.
  unfold mbind at 1. unfold M_bind at 1.
  destruct (get_logging_status self bucket_name wh) as [[st|e] w0]; [|discriminate].
  unfold mbind at 1. unfold M_bind at 1.
  destruct (enable_access_logging self bucket_name w0) as [[ok|e] w1] eqn:He;
    [|discriminate].
  destruct ok; cbn [andb].
  2:{ cbn. intros [= <- <-]. cbn. discriminate. }
  pose proof (enable_access_logging_stored _ _ _ _ Hd He) as Hl.
  unfold mbind at 1. unfold M_bind at 1.
  destruct (get_logging_status self bucket_name w1) as [[st'|e] w2] eqn:Hg;
    [|discriminate].
  cbn. intros [= <- <-] _. cbn.
  pose proof (get_logging_status_inv _ _ _ _ _ Hg) as [-> _].
  split; [exact Hl|].
  revert Hg. unfold get_logging_status, try_except, s3_client.get_bucket_logging,
    request, mbind, M_bind.
  destruct (faults w1 (length (calls w1))) as [[]|]; cbn; try discriminate.
  - intros [= <-]. by right.
  - rewrite Hl. cbn. unfold opt_eq_str. cbn. rewrite !String.eqb_refl. cbn.
    intros [= <-]. by left.
Qed.

End LoggingProperties.

(** ** What the rewrite of a policy document keeps *)

Section Rewrite.

Lemma scan_statements_filter l hi acc hi' news :
  scan_statements l hi acc = Ret (hi', news) ->
  news = (acc ++ filter (fun s => is_incomplete_deny s = false) l)%list /\
  hi' = hi || existsb is_incomplete_deny l.
Proof.
  revert hi acc. induction l as [|x l IH]; intros hi acc.
  - cbn. intros [= <- <-]. by rewrite app_nil_r, orb_false_r.
  - cbn [scan_statements existsb].
    destruct (is_http_deny x) as [[]|] eqn:Hd; cbn [mbind res_bind]; [|idtac|discriminate].
    + destruct (is_complete x) as [[]|] eqn:Hc; cbn [mbind res_bind]; [|idtac|discriminate].
      * assert (Hx : is_incomplete_deny x = false)
          by (unfold is_incomplete_deny; by rewrite Hd, Hc).
        intros [-> ->]%IH. rewrite filter_cons_True, Hx by done.
        by rewrite <- app_assoc.
      * assert (Hx : is_incomplete_deny x = true)
          by (unfold is_incomplete_deny; by rewrite Hd, Hc).
        intros [-> ->]%IH. rewrite filter_cons_False, Hx by by rewrite Hx.
        by rewrite orb_true_r.
    + assert (Hx : is_incomplete_deny x = false)
        by (unfold is_incomplete_deny; by rewrite Hd).
      intros [-> ->]%IH. rewrite filter_cons_True, Hx by done.
      by rewrite <- app_assoc.
Qed.

Lemma py_any_false_elim p l :
  py_any p l = Ret false -> forall x, x ∈ l -> p x = Ret false.
Proof.
  induction l as [|y l IH]; cbn; intros H x Hx.
  - by apply not_elem_of_nil in Hx.
  - destruct (p y) as [[]|] eqn:E; cbn in H; try discriminate.
    apply elem_of_cons in Hx as [->|Hx]; auto.
Qed.

Lemma dict_lookup_set_ne k k0 v kvs :
  k <> k0 -> dict_lookup k (dict_set k0 v kvs) = dict_lookup k kvs.
Proof.
  intros Hne. induction kvs as [|[k' v'] kvs IH]; cbn.
  - by apply String.eqb_neq in Hne as ->.
  - destruct (String.eqb k0 k') eqn:E; cbn.
    + apply String.eqb_eq in E as <-. by apply String.eqb_neq in Hne as ->.
    + by rewrite IH.
Qed.

(** X8. Rewriting an existing document is conservative.  The status is
    "needs_change"; every top-level key other than [Statement] keeps its
    value; the new [Statement] list is the old one, in order, without the
    incomplete deny-on-insecure-transport statements, followed by the
    canonical statement exactly when the old list had no complete one. *)
Theorem reconcile_rewrites_conservatively bucket_name kvs items st policy' :
  dict_lookup "Statement" kvs = Some (JList items) ->
  reconcile bucket_name (JObj kvs) = Ret (Rewrite st policy') ->
  st = "needs_change" /\
  exists kvs' added,
    policy' = JObj kvs' /\
    (forall k, k <> "Statement" -> dict_lookup k kvs' = dict_lookup k kvs) /\
    dict_lookup "Statement" kvs'
    = Some (JList (filter (fun s => is_incomplete_deny s = false) items ++ added)) /\
    ((added = [] /\ exists s, s ∈ items /\ complete_shape s) \/
     (added = [create_deny_http_statement bucket_name] /\
      forall s, s ∈ items -> ~ complete_shape s)).
Proof.
  intros Hs. unfold reconcile. cbn. rewrite Hs. cbn.
  destruct (py_any complete_deny_http items) as [hc|] eqn:Ha; cbn; [|discriminate].
  destruct (scan_statements items false []) as [[hi news]|] eqn:Hsc;
    cbn; [|discriminate].
  apply scan_statements_filter in Hsc as [-> _]. cbn.
  assert (Hnone : hc = false -> forall s, s ∈ items -> ~ complete_shape s).
  { intros -> s Hin Hshape. apply complete_shape_iff in Hshape.
    rewrite (py_any_false_elim _ _ Ha s Hin) in Hshape. discriminate. }
  assert (Hsome : hc = true -> exists s, s ∈ items /\ complete_shape s).
  { intros ->. apply py_any_true_elim in Ha as (s & Hin & Hc).
    exists s. split; [done|]. by apply complete_shape_iff. }
  destruct hi, hc; cbn; try discriminate; intros [= <- <-]; (split; [done|]).
  - eexists _, []. rewrite app_nil_r. repeat split; auto using dict_lookup_set.
    intros k Hk. by apply dict_lookup_set_ne.
  - eexists _, [create_deny_http_statement bucket_name].
    repeat split; auto using dict_lookup_set.
    intros k Hk. by apply dict_lookup_set_ne.
  - eexists _, [create_deny_http_statement bucket_name].
    repeat split; auto using dict_lookup_set.
    intros k Hk. by apply dict_lookup_set_ne.
Qed.

(** X9. A document with a list of statements is left alone (status
    "applied", no write) exactly when at least one statement has the
    complete shape and every statement is kept by the loop, that is, none
    is an incomplete deny-on-insecure-transport statement and none makes
    the inspection raise. *)
Theorem reconcile_applied_iff bucket_name kvs items :
  dict_lookup "Statement" kvs = Some (JList items) ->
  reconcile bucket_name (JObj kvs) = Ret AlreadyApplied
  <-> (exists s, s ∈ items /\ complete_shape s) /\ Forall kept items.
Proof.
  intros Hs. split.
  - unfold reconcile. cbn. rewrite Hs. cbn.
    destruct (py_any complete_deny_http items) as [hc|] eqn:Ha; cbn; [|discriminate].
    destruct (scan_statements items false []) as [[hi news]|] eqn:Hsc;
      cbn; [|discriminate].
    destruct hi, hc; cbn; try discriminate. intros _. split.
    + apply py_any_true_elim in Ha as (s & Hin & Hc).
      exists s. split; [done|]. by apply complete_shape_iff.
    + pose proof (scan_statements_filter _ _ _ _ _ Hsc) as [_ Hex].
      apply scan_statements_Ret in Hsc as (_ & _ & _ & Htot & _).
      apply Forall_forall. intros x Hx.
      rewrite Forall_forall in Htot. destruct (Htot x Hx) as [[] Hd]; [|by left].
      right. split; [done|].
      destruct (is_http_deny_Ret_obj _ _ Hd) as [xkvs ->].
      destruct (is_complete_total xkvs) as [[] Hc]; [done|].
      exfalso. cbn in Hex. symmetry in Hex. rewrite <- not_true_iff_false in Hex.
      apply Hex. apply existsb_exists. exists (JObj xkvs).
      split; [by apply list_elem_of_In|]. unfold is_incomplete_deny. by rewrite Hd, Hc.
  - intros [(s & Hin & Hshape) Hk].
    apply (reconcile_applied _ _ items s); auto. by apply complete_shape_iff.
Qed.

End Rewrite.

(** ** Start-up: the account id and the log bucket *)

Section Startup.

Lemma reconcile_log_bucket_policy a :
  reconcile (log_bucket_name a) (log_bucket_policy (log_bucket_name a) a)
  = Ret AlreadyApplied.
Proof. reflexivity. Qed.

(** X10. Provisioning of the log bucket.  In apply mode, when the log
    bucket is missing and the three requests are served,
    [_ensure_log_bucket] returns [True] after exactly [head_bucket],
    [create_bucket] (with a location constraint unless the region is
    us-east-1) and [put_bucket_policy]; the bucket then exists with the
    log-delivery policy, and that policy already satisfies the
    transport-deny control: processing the log bucket afterwards returns
    "applied" with a read only. *)
Theorem log_bucket_provisioned self w :
  dry_run self = false ->
  log_bucket_name (account_id self) ∉ buckets w ->
  faults w (length (calls w)) = None ->
  faults w (S (length (calls w))) = None ->
  faults w (S (S (length (calls w)))) = None ->
  exists w',
    _ensure_log_bucket self w = (Ret true, w') /\
    buckets w' = (buckets w ++ [log_bucket_name (account_id self)])%list /\
    policies w' !! log_bucket_name (account_id self)
    = Some (log_bucket_policy (log_bucket_name (account_id self)) (account_id self)) /\
    calls w'
    = (calls w ++
       [ HeadBucket (log_bucket_name (account_id self));
         CreateBucket (log_bucket_name (account_id self)) (location_constraint (region w));
         PutBucketPolicy (log_bucket_name (account_id self))
           (log_bucket_policy (log_bucket_name (account_id self)) (account_id self)) ])%list /\
    forall self',
      faults w' (length (calls w')) = None ->
      apply_deny_http_policy self' (log_bucket_name (account_id self)) w'
      = (Ret applied, log_call (GetBucketPolicy (log_bucket_name (account_id self))) w').
Proof.
  intros Hd Hnot Hf0 Hf1 Hf2.
  set (log := log_bucket_name (account_id self)) in *.
  set (doc := log_bucket_policy log (account_id self)).
  assert (Hnot' : bool_decide (log ∈ buckets w) = false) by by apply bool_decide_eq_false.
  set (w1 := log_call (HeadBucket log) w).
  set (w2 := set_buckets (buckets w ++ [log])
               (log_call (CreateBucket log (location_constraint (region w))) w1)).
  set (w3 := set_policies (<[log := doc]> (policies w2))
               (log_call (PutBucketPolicy log doc) w2)).
  assert (Hhead : s3_client.head_bucket log w = (Raise (ClientError "404"), w1)).
  { unfold s3_client.head_bucket, request. rewrite Hf0. cbn [buckets log_call].
    by rewrite Hnot'. }
  assert (Hcreate : s3_client.create_bucket log (location_constraint (region w)) w1
                    = (Ret tt, w2)).
  { unfold s3_client.create_bucket, request. unfold w1 at 1 2.
    rewrite length_calls_log_call. cbn [faults log_call]. rewrite Hf1.
    cbn [buckets log_call w1]. by rewrite Hnot'. }
  assert (Hput : s3_client.put_bucket_policy log doc w2 = (Ret tt, w3)).
  { unfold s3_client.put_bucket_policy, request.
    assert (Hlen : length (calls w2) = S (S (length (calls w)))).
    { unfold w2, w1. cbn [calls set_buckets]. by rewrite !length_calls_log_call. }
    rewrite Hlen. cbn [faults w2 w1 set_buckets log_call]. by rewrite Hf2. }
  exists w3. split.
  - unfold _ensure_log_bucket. fold log. unfold try_except at 1.
    unfold mbind at 1. unfold M_bind at 1. rewrite Hhead.
    cbn [is_ClientError]. change (String.eqb "404" "404") with true. cbv iota.
    rewrite Hd. unfold try_except.
    unfold mbind at 1. unfold M_bind at 1. unfold s3_client.region_name at 1.
    cbn [region w1 log_call].
    unfold mbind at 1. unfold M_bind at 1.
    assert (Hc' : (if String.eqb (region w) "us-east-1"
                   then s3_client.create_bucket log None
                   else s3_client.create_bucket log (Some (region w))) w1 = (Ret tt, w2)).
    { rewrite <- Hcreate. unfold location_constraint.
      by destruct (String.eqb (region w) "us-east-1"). }
    rewrite Hc'. unfold mbind at 1. unfold M_bind at 1. fold doc. rewrite Hput.
    reflexivity.
  - split; [done|]. split; [apply lookup_insert_eq|]. split.
    { cbn. by rewrite <- !app_assoc. }
    intros self' Hf. apply apply_deny_http_policy_noop; [exact Hf|].
    cbn [policies w3 set_policies]. rewrite lookup_insert_eq. cbn [default].
    apply reconcile_log_bucket_policy.
Qed.

Lemma only_ClientErrors_uninterrupted w : only_ClientErrors w -> uninterrupted w.
Proof. intros Hw n Hn. by specialize (Hw n _ Hn). Qed.

Lemma raises_ClientError_only_ret {A} (a : A) : raises_ClientError_only (mret a).
Proof. intros w _. split; [done | discriminate]. Qed.

Lemma raises_ClientError_only_lift_Raise {A} e :
  is_ClientError e = true -> raises_ClientError_only (lift (@Raise A e)).
Proof. intros He w _. split; [done|]. by intros e' [= <-]. Qed.

Lemma raises_ClientError_only_bind {A B} (m : M A) (f : A -> M B) :
  raises_ClientError_only m -> (forall a, raises_ClientError_only (f a)) ->
  raises_ClientError_only (m ≫= f).
Proof.
  intros Hm Hf w Hw. unfold mbind, M_bind. destruct (Hm w Hw) as [Hfm Hem].
  destruct (m w) as [[a|e] w1]; cbn in *;
    [|split; [done | intros ? [= <-]; by apply Hem]].
  assert (Hw1 : only_ClientErrors w1) by (intros n; rewrite Hfm; apply Hw).
  destruct (Hf a w1 Hw1) as [Hff Hef]. split; [congruence | done].
Qed.

Lemma raises_ClientError_only_try_except {A} (body : M A) catches handler :
  raises_ClientError_only body ->
  (forall e, catches e = true -> raises_ClientError_only (handler e)) ->
  raises_ClientError_only (try_except body catches handler).
Proof.
  intros Hm Hh w Hw. unfold try_except. destruct (Hm w Hw) as [Hfm Hem].
  destruct (body w) as [[a|e] w1]; cbn in *; [split; [done | discriminate]|].
  destruct (catches e) eqn:Hc; cbn; [|split; [done | intros ? [= <-]; by apply Hem]].
  assert (Hw1 : only_ClientErrors w1) by (intros n; rewrite Hfm; apply Hw).
  destruct (Hh e Hc w1 Hw1) as [Hfh Heh]. split; [congruence | done].
Qed.

Lemma raises_ClientError_only_request {A} c (serve : world -> res A * world) :
  (forall w, faults (snd (serve w)) = faults w) ->
  (forall w e, fst (serve w) = Raise e -> is_ClientError e = true) ->
  raises_ClientError_only (request c serve).
Proof.
  intros Hs He w Hw. unfold request.
  destruct (faults w (length (calls w))) as [e|] eqn:E; cbn.
  - split; [done|]. intros e' [= <-]. by apply (Hw _ _ E).
  - rewrite Hs. split; [done|]. apply He.
Qed.

Lemma raises_ClientError_only__ensure_log_bucket self :
  raises_ClientError_only (_ensure_log_bucket self).
Proof.
  unfold _ensure_log_bucket.
  apply raises_ClientError_only_try_except.
  { apply raises_ClientError_only_bind; [|intros; apply raises_ClientError_only_ret].
    apply raises_ClientError_only_request; intros w; destruct (bool_decide _); cbn;
      try done; by intros e [= <-]. }
  intros [code| | | |] Hc; try discriminate.
  destruct (String.eqb code "404"); [|apply raises_ClientError_only_ret].
  destruct (dry_run self); [apply raises_ClientError_only_ret|].
  apply raises_ClientError_only_try_except; [|intros; apply raises_ClientError_only_ret].
  apply raises_ClientError_only_bind.
  { intros w _. split; [done | discriminate]. }
  intros region. apply raises_ClientError_only_bind.
  { destruct (String.eqb region "us-east-1");
      apply raises_ClientError_only_request; intros w; destruct (bool_decide _); cbn;
        try done; by intros e [= <-]. }
  intros _. apply raises_ClientError_only_bind; [|intros; apply raises_ClientError_only_ret].
  by apply raises_ClientError_only_request.
Qed.

Lemma no_ClientError__ensure_log_bucket self : no_ClientError (_ensure_log_bucket self).
Proof.
  unfold _ensure_log_bucket. apply no_ClientError_try_except.
  intros [code| | | |] Hc; try discriminate.
  destruct (String.eqb code "404"); [|apply no_ClientError_ret].
  destruct (dry_run self); [apply no_ClientError_ret|].
  apply no_ClientError_try_except. intros; apply no_ClientError_ret.
Qed.

Lemma _get_account_id_eq w :
  _get_account_id w =
  match faults w (length (calls w)) with
  | Some e => (Raise e, log_call GetCallerIdentity w)
  | None => (Ret (account w), log_call GetCallerIdentity w)
  end.
Proof.
  unfold _get_account_id, try_except, sts_client.get_caller_identity, request, lift.
  by destruct (faults w (length (calls w))) as [[]|].
Qed.

Lemma __init___object d ex sp sl ho lo w self w' :
  __init__ d ex sp sl ho lo w = (Ret self, w') ->
  self = {| dry_run := d; exclude_buckets := default [] ex;
            show_policy := sp; show_logging := sl;
            http_only := ho; logging_only := lo; account_id := account w |}.
Proof.
  unfold __init__. unfold mbind at 1. unfold M_bind at 1. rewrite _get_account_id_eq.
  destruct (faults w (length (calls w))); [discriminate|].
  unfold mbind, M_bind.
  destruct (_ensure_log_bucket _ _) as [[ok|e] w2]; [|discriminate].
  by intros [= <- _].
Qed.

Lemma __init___on_ClientErrors d ex sp sl ho lo w :
  only_ClientErrors w ->
  faults w (length (calls w)) = None ->
  exists self w',
    __init__ d ex sp sl ho lo w = (Ret self, w') /\ faults w' = faults w.
Proof.
  intros Hw Hf. unfold __init__. unfold mbind at 1. unfold M_bind at 1.
  rewrite _get_account_id_eq, Hf.
  set (self := {| dry_run := d; exclude_buckets := default [] ex;
                  show_policy := sp; show_logging := sl;
                  http_only := ho; logging_only := lo; account_id := account w |}).
  unfold mbind, M_bind.
  assert (Hw1 : only_ClientErrors (log_call GetCallerIdentity w)) by exact Hw.
  destruct (raises_ClientError_only__ensure_log_bucket self _ Hw1) as [Hfs He].
  pose proof (no_ClientError__ensure_log_bucket self (log_call GetCallerIdentity w)) as Hn.
  destruct (_ensure_log_bucket self (log_call GetCallerIdentity w)) as [[ok|e] w2];
    cbn in *; [eauto|].
  specialize (He e eq_refl). specialize (Hn e eq_refl). congruence.
Qed.

(** X11. Once the account id has been resolved, no service error stops
    the construction of the object: on a schedule whose failures are all
    [ClientError], [__init__] returns it with the arguments it was given,
    whether or not the log bucket could be checked, created or given its
    policy (the result of [_ensure_log_bucket] is not looked at). *)
Theorem init_survives_log_bucket_errors d ex sp sl ho lo w :
  only_ClientErrors w ->
  faults w (length (calls w)) = None ->
  exists w',
    __init__ d ex sp sl ho lo w
    = (Ret {| dry_run := d; exclude_buckets := default [] ex;
              show_policy := sp; show_logging := sl;
              http_only := ho; logging_only := lo;
              account_id := account w |}, w').
Proof.
  intros Hw Hf.
  destruct (__init___on_ClientErrors d ex sp sl ho lo w Hw Hf) as (self & w' & Hi & _).
  exists w'. by rewrite <- (__init___object _ _ _ _ _ _ _ _ _ Hi).
Qed.

(** X12. When the account id cannot be resolved, [main] exits with
    status 1 after that single request: no bucket is looked at. *)
Theorem main_stops_without_account_id args w e :
  Args.http_only args && Args.logging_only args = false ->
  faults w (length (calls w)) = Some e ->
  main args w = (SystemExit 1, log_call GetCallerIdentity w).
Proof.
  intros Hflags Hf. unfold main. rewrite Hflags.
  unfold mbind at 1. unfold M_bind at 1. unfold __init__.
  unfold mbind at 1. unfold M_bind at 1. rewrite _get_account_id_eq, Hf.
  by destruct e.
Qed.

End Startup.

(** ** Enumeration and the whole run *)

Section Enumeration.

Lemma get_all_buckets_eq self w :
  get_all_buckets self w =
  let log_bucket := log_bucket_name (account_id self) in
  let self' :=
    if bool_decide (log_bucket ∈ exclude_buckets self) then self
    else set_exclude_buckets (exclude_buckets self ++ [log_bucket]) self in
  match faults w (length (calls w)) with
  | Some (ClientError _) => (Ret ([], self), log_call ListBuckets w)
  | Some e => (Raise e, log_call ListBuckets w)
  | None =>
      (Ret (filter (fun b => b ∉ exclude_buckets self') (buckets w), self'),
       log_call ListBuckets w)
  end.
Proof.
  unfold get_all_buckets, try_except, s3_client.list_buckets, request, mbind, M_bind.
  by destruct (faults w (length (calls w))) as [[]|].
Qed.

(** The names a served listing leaves. *)
Lemma get_all_buckets_names self w :
  faults w (length (calls w)) = None ->
  exists names self',
    get_all_buckets self w = (Ret (names, self'), log_call ListBuckets w) /\
    forall k, k ∈ names <->
      k ∈ buckets w /\ (k ∉ exclude_buckets self) /\
      k <> log_bucket_name (account_id self).
Proof.
  intros Hf. rewrite get_all_buckets_eq, Hf. cbn zeta.
  eexists _, _. split; [reflexivity|].
  intros k. rewrite list_elem_of_filter.
  destruct (bool_decide _) eqn:Hb.
  - apply bool_decide_eq_true in Hb. split; [|tauto].
    intros [Hk ?]. repeat split; auto. by intros ->.
  - cbn. rewrite elem_of_app, list_elem_of_singleton. tauto.
Qed.

(** X13. A served [get_all_buckets] returns the listed names in the
    order of the listing, keeping exactly those that are neither excluded
    nor the log bucket; the exclusion list afterwards is the old one with
    the log bucket's name in it, and calling again on the same listing
    returns the same names and leaves the object as it is (the name is
    appended once). *)
Theorem get_all_buckets_served self w :
  faults w (length (calls w)) = None ->
  exists names self',
    get_all_buckets self w = (Ret (names, self'), log_call ListBuckets w) /\
    sublist names (buckets w) /\
    (forall k, k ∈ names <->
       k ∈ buckets w /\ (k ∉ exclude_buckets self) /\
       k <> log_bucket_name (account_id self)) /\
    (forall k, k ∈ exclude_buckets self' <->
       k ∈ exclude_buckets self \/ k = log_bucket_name (account_id self)) /\
    account_id self' = account_id self /\
    forall w2,
      faults w2 (length (calls w2)) = None -> buckets w2 = buckets w ->
      get_all_buckets self' w2 = (Ret (names, self'), log_call ListBuckets w2).
Proof.
  intros Hf. rewrite get_all_buckets_eq, Hf. cbn zeta.
  set (log := log_bucket_name (account_id self)).
  set (self' := if bool_decide (log ∈ exclude_buckets self) then self
                else set_exclude_buckets (exclude_buckets self ++ [log]) self).
  assert (Hex : forall k, k ∈ exclude_buckets self' <-> k ∈ exclude_buckets self \/ k = log).
  { intros k. unfold self'. destruct (bool_decide _) eqn:Hb.
    - apply bool_decide_eq_true in Hb. split; [auto|]. by intros [?| ->].
    - cbn. rewrite elem_of_app, list_elem_of_singleton. tauto. }
  assert (Hacc : account_id self' = account_id self).
  { unfold self'. by destruct (bool_decide _). }
  eexists _, self'. split; [reflexivity|]. split; [apply sublist_filter|].
  split.
  { intros k. rewrite list_elem_of_filter, Hex. tauto. }
  split; [exact Hex|]. split; [exact Hacc|].
  intros w2 Hf2 Hb2. rewrite get_all_buckets_eq, Hf2. cbn zeta.
  rewrite Hacc. fold log.
  assert (Hin : bool_decide (log ∈ exclude_buckets self') = true).
  { apply bool_decide_eq_true. apply Hex. by right. }
  by rewrite Hin, Hb2.
Qed.

(** X14. On a schedule without [KeyboardInterrupt] and with the listing
    served, the all-buckets run returns, and its results have an entry for
    exactly the listed buckets that are neither excluded nor the log
    bucket: no bucket is left out, whatever happened to the others. *)
Theorem every_enumerated_bucket_has_an_entry self w :
  uninterrupted w ->
  faults w (length (calls w)) = None ->
  exists results self' w',
    apply_baseline_to_all_buckets self w = (Ret (results, self'), w') /\
    forall k, is_Some (results !! k) <->
      k ∈ buckets w /\ (k ∉ exclude_buckets self) /\
      k <> log_bucket_name (account_id self).
Proof.
  intros Hw Hf.
  destruct (get_all_buckets_names self w Hf) as (names & self' & Hg & Hn).
  destruct (process_buckets_total self' names ∅ (log_call ListBuckets w) Hw)
    as (final & w' & Hp).
  unfold apply_baseline_to_all_buckets. unfold mbind at 1. unfold M_bind at 1.
  rewrite Hg. cbn [fst snd].
  destruct names as [|b names].
  - exists ∅, self', (log_call ListBuckets w). split; [done|].
    intros k. rewrite <- Hn, lookup_empty. split; [by intros [? ?]|].
    intros Hk. by apply not_elem_of_nil in Hk.
  - exists final, self', w'. unfold mbind, M_bind. rewrite Hp. split; [done|].
    intros k. rewrite <- Hn.
    apply process_buckets_lookup in Hp as [Hin Hout]. split; [|apply Hin].
    intros Hsome. destruct (decide (k ∈ b :: names)) as [|Hnot]; [done|].
    rewrite (Hout k Hnot), lookup_empty in Hsome. by destruct Hsome.
Qed.

End Enumeration.

Section WholeRun.

(** X15. With enumeration, service errors never abort the run: when the
    account id is resolved and every failure of the schedule is a
    [ClientError], [main] returns after its report (exit status 0),
    whatever failed for the log bucket, the listing or the buckets. *)
Theorem enumerating_run_completes args w :
  only_ClientErrors w ->
  faults w (length (calls w)) = None ->
  Args.http_only args && Args.logging_only args = false ->
  given (Args.bucket args) = false ->
  exists results w', main args w = (Reported results, w').
Proof.
  intros Hw Hf Hflags Hb. unfold main. rewrite Hflags, Hb.
  unfold mbind at 1. unfold M_bind at 1.
  destruct (__init___on_ClientErrors (negb (Args.apply args))
              (Some (default [] (Args.exclude args)))
              (Args.show_policy args) (Args.show_logging args)
              (Args.http_only args) (Args.logging_only args) w Hw Hf)
    as (self & w1 & -> & Hf1).
  assert (Hw1 : only_ClientErrors w1) by (intros n; rewrite Hf1; apply Hw).
  assert (Hg : exists names self',
             get_all_buckets self w1 = (Ret (names, self'), log_call ListBuckets w1)).
  { rewrite get_all_buckets_eq. cbn zeta.
    destruct (faults w1 (length (calls w1))) as [e|] eqn:Hl; [|eauto].
    pose proof (Hw1 _ _ Hl) as He. destruct e; try discriminate. eauto. }
  destruct Hg as (names & self' & Hg).
  assert (Hall : exists results w2,
             apply_baseline_to_all_buckets self w1 = (Ret (results, self'), w2)).
  { destruct names as [|b names].
    - unfold apply_baseline_to_all_buckets. unfold mbind at 1. unfold M_bind at 1.
      rewrite Hg. cbn. eauto.
    - rewrite (apply_baseline_to_all_buckets_eq _ _ _ _ _ Hg) by done.
      destruct (process_buckets_total self' (b :: names) ∅ (log_call ListBuckets w1))
        as (final & w2 & ->); [by apply only_ClientErrors_uninterrupted|].
      eauto. }
  destruct Hall as (results & w2 & Hall).
  unfold mbind, M_bind. rewrite Hall. cbn. eauto.
Qed.

(** X16. A listing that fails with a [ClientError] is reported like an
    account without buckets: the results are empty, nothing else is
    requested, and [main] returns normally. *)
Theorem failed_listing_reports_nothing args w baseline w1 code :
  Args.http_only args && Args.logging_only args = false ->
  given (Args.bucket args) = false ->
  __init__ (negb (Args.apply args)) (Some (default [] (Args.exclude args)))
    (Args.show_policy args) (Args.show_logging args)
    (Args.http_only args) (Args.logging_only args) w = (Ret baseline, w1) ->
  faults w1 (length (calls w1)) = Some (ClientError code) ->
  main args w = (Reported ∅, log_call ListBuckets w1).
Proof.
  intros Hflags Hb Hi Hl. unfold main. rewrite Hflags, Hb.
  unfold mbind at 1. unfold M_bind at 1. rewrite Hi.
  unfold mbind, M_bind. unfold apply_baseline_to_all_buckets.
  unfold mbind at 1. unfold M_bind at 1. rewrite get_all_buckets_eq, Hl.
  reflexivity.
Qed.

(** X17. With [--bucket] there is no per-bucket handler: a stored policy
    with a statement whose [Condition] cannot be followed makes [main]
    exit with status 1 right after the policy read, without results or
    report (enumeration records the same bucket as "error" and goes on). *)
Theorem explicit_bucket_failure_exits args name w baseline w1 kvs items stmt :
  Args.http_only args && Args.logging_only args = false ->
  Args.logging_only args = false ->
  name <> "" ->
  __init__ (negb (Args.apply args)) (Some (default [] (Args.exclude args)))
    (Args.show_policy args) (Args.show_logging args)
    (Args.http_only args) (Args.logging_only args) w = (Ret baseline, w1) ->
  faults w1 (length (calls w1)) = None ->
  policies w1 !! name = Some (JObj kvs) ->
  dict_lookup "Statement" kvs = Some (JList items) ->
  stmt ∈ items ->
  malformed_condition stmt ->
  main (with_bucket (Some name) args) w
  = (SystemExit 1, log_call (GetBucketPolicy name) w1).
Proof.
  intros Hflags Hlo Hne Hi Hf Hp Hs Hin Hbad. unfold main. cbn.
  rewrite Hflags. unfold mbind at 1. unfold M_bind at 1. rewrite Hi.
  apply String.eqb_neq in Hne as ->. cbn [negb].
  pose proof (__init___object _ _ _ _ _ _ _ _ _ Hi) as Hobj.
  assert (Hdeny : apply_deny_http_policy baseline name w1
                  = (Raise AttributeError, log_call (GetBucketPolicy name) w1)).
  { assert (Hg : get_bucket_policy baseline name w1
                 = (Ret (JObj kvs), log_call (GetBucketPolicy name) w1))
      by (rewrite get_bucket_policy_eq; by rewrite Hf, Hp).
    rewrite (apply_deny_http_policy_read _ _ _ _ _ Hg).
    by rewrite (reconcile_malformed_condition _ _ _ _ Hs Hin Hbad). }
  unfold mbind, M_bind, apply_baseline_to_bucket.
  assert (Hl : logging_only baseline = false) by (by rewrite Hobj).
  rewrite Hl. cbn [negb]. unfold mbind, M_bind. by rewrite Hdeny.
Qed.

(** X18. Without [--apply] the whole run is read-only: whatever the
    arguments and the failures, [main] creates no bucket and writes no
    policy and no logging configuration. *)
Theorem main_without_apply_writes_nothing args w :
  Args.apply args = false ->
  buckets (snd (main args w)) = buckets w /\
  policies (snd (main args w)) = policies w /\
  loggings (snd (main args w)) = loggings w /\
  exists cs,
    calls (snd (main args w)) = (calls w ++ cs)%list /\
    Forall (fun c => is_write c = false) cs.
Proof.
  intros Ha. destruct (main_dry_run_read_only args w Ha) as (Hb & Hp & Hl & _ & Hc).
  auto.
Qed.

(** X19. [is_logging_enabled] answers [True] exactly when the read was
    served and the bucket has a logging configuration, whatever its
    target; a read failing with a [ClientError] is answered [False], like
    a bucket without logging. *)
Theorem is_logging_enabled_iff self bucket_name w :
  match fst (is_logging_enabled self bucket_name w) with
  | Ret enabled =>
      enabled = true <->
      faults w (length (calls w)) = None /\ is_Some (loggings w !! bucket_name)
  | Raise e => is_ClientError e = false
  end.
Proof.
  unfold is_logging_enabled, get_logging_status, try_except,
    s3_client.get_bucket_logging, request, mbind, M_bind.
  destruct (faults w (length (calls w))) as [[]|]; cbn; try done;
    try (split; [discriminate | by intros [? _]]).
  destruct (loggings w !! bucket_name) as [cfg|]; cbn.
  - destruct (_ && _); cbn; split; eauto.
  - split; [discriminate | by intros [_ [? ?]]].
Qed.

End WholeRun.

(** ** The summary counts each bucket once per control *)

Section Summary.

Lemma item_alter k k' (s : gmap string nat) :
  is_Some (s !! k) ->
  item (alter S k s) k' = item s k' + (if decide (k = k') then 1 else 0).
Proof.
  intros [n Hn]. unfold item. rewrite lookup_alter.
  case_decide; [subst; rewrite Hn; cbn; lia | lia].
Qed.

Lemma has_keys_alter k (s : gmap string nat) : has_keys s -> has_keys (alter S k s).
Proof.
  unfold has_keys. intros Hs. eapply Forall_impl; [exact Hs|]. intros k' [n Hn].
  cbn. rewrite lookup_alter. case_decide; [subst; rewrite Hn|]; eauto.
Qed.

Lemma has_keys_initial n : has_keys (initial_summary n).
Proof. unfold has_keys, summary_keys. repeat constructor; by eexists. Qed.

Lemma has_keys_lookup k s : has_keys s -> k ∈ summary_keys -> is_Some (s !! k).
Proof. unfold has_keys. rewrite Forall_forall. auto. Qed.

Lemma has_keys_count_bucket r s : has_keys s -> has_keys (count_bucket r s).
Proof.
  intros Hs. unfold count_bucket.
  repeat match goal with
         | |- context [if ?b then _ else _] => destruct b
         end; auto using has_keys_alter.
Qed.

Ltac summary_key := unfold summary_keys; solve [repeat first [left | right]].

(** Evaluate the concatenation of two string literals. *)
Ltac literal_keys :=
  repeat match goal with
         | |- context [String.append ?a ?b] =>
             let k := eval vm_compute in (String.append a b) in
             change (String.append a b) with k
         end.

(** One turn of the loop: the counter of a logging status goes up by one
    exactly for a bucket with that status. *)
Lemma count_bucket_logging r s st :
  has_keys s -> st ∈ "skipped" :: logging_statuses ->
  item (count_bucket r s) ("logging_" ++ st)
  = item s ("logging_" ++ st) + (if decide (logging_status r = st) then 1 else 0).
Proof.
  intros Hs Hst. unfold count_bucket, logging_statuses in *.
  repeat (apply elem_of_cons in Hst as [->|Hst]); [..|by apply not_elem_of_nil in Hst];
    literal_keys;
    repeat match goal with
           | |- context [String.eqb ?x ?y] =>
               let E := fresh "E" in
               destruct (String.eqb x y) eqn:E;
               [apply String.eqb_eq in E | apply String.eqb_neq in E]
           end;
    rewrite ?item_alter
      by (apply has_keys_lookup; [repeat apply has_keys_alter; assumption | summary_key]);
    repeat case_decide; try congruence; try lia.
Qed.

Lemma count_bucket_deny_http r s st :
  has_keys s -> st ∈ "skipped" :: deny_http_statuses ->
  item (count_bucket r s) ("deny_http_" ++ st)
  = item s ("deny_http_" ++ st) + (if decide (deny_http_status r = st) then 1 else 0).
Proof.
  intros Hs Hst. unfold count_bucket, deny_http_statuses in *.
  repeat (apply elem_of_cons in Hst as [->|Hst]); [..|by apply not_elem_of_nil in Hst];
    literal_keys;
    repeat match goal with
           | |- context [String.eqb ?x ?y] =>
               let E := fresh "E" in
               destruct (String.eqb x y) eqn:E;
               [apply String.eqb_eq in E | apply String.eqb_neq in E]
           end;
    rewrite ?item_alter
      by (apply has_keys_lookup; [repeat apply has_keys_alter; assumption | summary_key]);
    repeat case_decide; try congruence; try lia.
Qed.

Lemma count_bucket_total r s :
  has_keys s -> item (count_bucket r s) "total" = item s "total".
Proof.
  intros Hs. unfold count_bucket.
  repeat match goal with
         | |- context [String.eqb ?x ?y] => destruct (String.eqb x y)
         end;
    rewrite ?item_alter
      by (apply has_keys_lookup; [repeat apply has_keys_alter; assumption | summary_key]);
    repeat case_decide; try congruence; try lia.
Qed.

Lemma foldl_count_bucket rs s :
  has_keys s ->
  has_keys (foldl (fun summary r => count_bucket r summary) s rs) /\
  item (foldl (fun summary r => count_bucket r summary) s rs) "total" = item s "total" /\
  (forall st, st ∈ "skipped" :: logging_statuses ->
     item (foldl (fun summary r => count_bucket r summary) s rs) ("logging_" ++ st)
     = item s ("logging_" ++ st)
       + length (filter (fun r => logging_status r = st) rs)) /\
  (forall st, st ∈ "skipped" :: deny_http_statuses ->
     item (foldl (fun summary r => count_bucket r summary) s rs) ("deny_http_" ++ st)
     = item s ("deny_http_" ++ st)
       + length (filter (fun r => deny_http_status r = st) rs)).
Proof.
  revert s. induction rs as [|r rs IH]; intros s Hs; cbn [foldl].
  - repeat split; auto; intros st _; cbn; lia.
  - destruct (IH (count_bucket r s) (has_keys_count_bucket r s Hs))
      as (Hk & Ht & Hl & Hd).
    split; [exact Hk|]. split; [by rewrite Ht, count_bucket_total|]. split.
    + intros st Hst. rewrite (Hl st Hst), (count_bucket_logging r s st Hs Hst).
      case_decide.
      * rewrite filter_cons_True by done. cbn. lia.
      * rewrite filter_cons_False by done. lia.
    + intros st Hst. rewrite (Hd st Hst), (count_bucket_deny_http r s st Hs Hst).
      case_decide.
      * rewrite filter_cons_True by done. cbn. lia.
      * rewrite filter_cons_False by done. lia.
Qed.

Lemma generate_summary_counts_aux (results : gmap string bucket_results) :
  item (generate_summary results) "total" = size results /\
  (forall st, st ∈ "skipped" :: logging_statuses ->
     item (generate_summary results) ("logging_" ++ st)
     = length (filter (fun r => logging_status r = st) (values results))) /\
  (forall st, st ∈ "skipped" :: deny_http_statuses ->
     item (generate_summary results) ("deny_http_" ++ st)
     = length (filter (fun r => deny_http_status r = st) (values results))).
Proof.
  unfold generate_summary. fold (values results).
  destruct (foldl_count_bucket (values results) (initial_summary (size results))
              (has_keys_initial _)) as (_ & Ht & Hl & Hd).
  split; [by rewrite Ht|]. split.
  - intros st Hst. rewrite (Hl st Hst). unfold logging_statuses in Hst.
    repeat (apply elem_of_cons in Hst as [->|Hst]); [..|by apply not_elem_of_nil in Hst];
      reflexivity.
  - intros st Hst. rewrite (Hd st Hst). unfold deny_http_statuses in Hst.
    repeat (apply elem_of_cons in Hst as [->|Hst]); [..|by apply not_elem_of_nil in Hst];
      reflexivity.
Qed.

(** X20. What [generate_summary] computes: "total" is the number of
    buckets in the results, and for each of the five statuses of either
    control the counter named after it is the number of buckets with that
    status; a bucket with any other status (such as the initial "unknown")
    is counted in "total" only. *)
Theorem generate_summary_counts (results : gmap string bucket_results) :
  item (generate_summary results) "total" = size results /\
  (forall st, st ∈ "skipped" :: logging_statuses ->
     item (generate_summary results) ("logging_" ++ st)
     = length (filter (fun r => logging_status r = st) (values results))) /\
  (forall st, st ∈ "skipped" :: deny_http_statuses ->
     item (generate_summary results) ("deny_http_" ++ st)
     = length (filter (fun r => deny_http_status r = st) (values results))).
Proof. apply generate_summary_counts_aux. Qed.

(** Five disjoint classes that cover a list add up to its length. *)
Lemma five_way_count {A} (f : A -> string) (s1 s2 s3 s4 s5 : string) (l : list A) :
  NoDup [s1; s2; s3; s4; s5] ->
  Forall (fun x => f x ∈ [s1; s2; s3; s4; s5]) l ->
  length (filter (fun x => f x = s1) l) + length (filter (fun x => f x = s2) l)
  + length (filter (fun x => f x = s3) l) + length (filter (fun x => f x = s4) l)
  + length (filter (fun x => f x = s5) l) = length l.
Proof.
  intros Hnd. induction 1 as [|x l Hx _ IH]; [done|].
  assert (Hcase : forall s, length (filter (fun y => f y = s) (x :: l))
                    = (if decide (f x = s) then 1 else 0)
                      + length (filter (fun y => f y = s) l)).
  { intros s. case_decide; [by rewrite filter_cons_True | by rewrite filter_cons_False]. }
  rewrite !Hcase. cbn [length]. rewrite <- IH.
  apply NoDup_cons in Hnd as [H1 Hnd]. apply NoDup_cons in Hnd as [H2 Hnd].
  apply NoDup_cons in Hnd as [H3 Hnd]. apply NoDup_cons in Hnd as [H4 _].
  repeat (apply elem_of_cons in Hx as [Hx|Hx]); [..|by apply not_elem_of_nil in Hx];
    rewrite Hx; repeat case_decide; subst; try lia; set_solver.
Qed.

Lemma process_buckets_Forall (P : bucket_results -> Prop) self names results w final w' :
  (forall b, ensures P (apply_baseline_to_bucket self b)) ->
  P error_results ->
  map_Forall (fun _ => P) results ->
  process_buckets self names results w = (Ret final, w') ->
  map_Forall (fun _ => P) final.
Proof.
  intros Hb He. revert results w. induction names as [|b names IH]; intros results w Hr.
  - by intros [= <- _].
  - cbn. unfold mbind at 1. unfold M_bind at 1.
    destruct (try_except _ _ _ w) as [[r|e] w1] eqn:E; [|discriminate].
    apply IH. revert E. unfold try_except, mbind, M_bind.
    pose proof (Hb b w) as Hbw.
    destruct (apply_baseline_to_bucket self b w) as [[v|e] w2]; cbn in Hbw.
    + intros [= <- _]. apply map_Forall_insert_2; auto.
    + destruct (is_Exception e); [|discriminate]. intros [= <- _].
      by apply map_Forall_insert_2.
Qed.

(** X21. In the summary of an all-buckets run every bucket is counted
    exactly once for each control: the five logging counters add up to
    "total", and so do the five transport-deny counters, whatever failed
    while the buckets were processed. *)
Theorem batch_summary_adds_up self w results self' w' :
  apply_baseline_to_all_buckets self w = (Ret (results, self'), w') ->
  item (generate_summary results) "total" = size results /\
  item (generate_summary results) "logging_enabled"
  + item (generate_summary results) "logging_enabled_other"
  + item (generate_summary results) "logging_disabled"
  + item (generate_summary results) "logging_error"
  + item (generate_summary results) "logging_skipped" = size results /\
  item (generate_summary results) "deny_http_applied"
  + item (generate_summary results) "deny_http_needs_change"
  + item (generate_summary results) "deny_http_not_applied"
  + item (generate_summary results) "deny_http_error"
  + item (generate_summary results) "deny_http_skipped" = size results.
Proof.
  intros Hall.
  set (P := fun r : bucket_results =>
              logging_status r ∈ ["enabled"; "enabled_other"; "disabled"; "error"; "skipped"] /\
              deny_http_status r ∈ ["applied"; "needs_change"; "not_applied"; "error"; "skipped"]).
  assert (Hres : map_Forall (fun _ => P) results).
  { revert Hall. unfold apply_baseline_to_all_buckets.
    unfold mbind at 1. unfold M_bind at 1.
    destruct (get_all_buckets self w) as [[[names self1]|e] w1]; [|discriminate].
    cbn [fst snd]. destruct names as [|b names].
    { intros [= <- _ _]. apply map_Forall_empty. }
    unfold mbind, M_bind.
    destruct (process_buckets self1 (b :: names) ∅ w1) as [[final|e] w2] eqn:Hp;
      [|discriminate].
    intros [= <- _ _]. eapply (process_buckets_Forall P); [| | |exact Hp].
    - intros b0. eapply ensures_weaken; [apply ensures_apply_baseline_to_bucket|].
      intros r (Hd & Hl & _). unfold P, logging_statuses, deny_http_statuses in *.
      split; set_solver.
    - unfold P. cbn. split; set_solver.
    - apply map_Forall_empty. }
  apply map_Forall_to_list in Hres.
  assert (Hvals : Forall P (values results)).
  { unfold values. apply Forall_fmap. eapply Forall_impl; [exact Hres|].
    by intros [k r]. }
  destruct (generate_summary_counts_aux results) as (Ht & Hl & Hd).
  split; [exact Ht|]. rewrite <- length_map_to_list.
  replace (length (map_to_list results)) with (length (values results))
    by (unfold values; apply length_map).
  split.
  - rewrite <- (five_way_count logging_status
                  "enabled" "enabled_other" "disabled" "error" "skipped" (values results)).
    + pose proof (Hl "enabled" ltac:(set_solver)) as H1.
      pose proof (Hl "enabled_other" ltac:(set_solver)) as H2.
      pose proof (Hl "disabled" ltac:(set_solver)) as H3.
      pose proof (Hl "error" ltac:(set_solver)) as H4.
      pose proof (Hl "skipped" ltac:(set_solver)) as H5.
      cbv [String.append] in H1, H2, H3, H4, H5. by rewrite H1, H2, H3, H4, H5.
    + repeat constructor; set_solver.
    + eapply Forall_impl; [exact Hvals|]. by intros r [? _].
  - rewrite <- (five_way_count deny_http_status
                  "applied" "needs_change" "not_applied" "error" "skipped" (values results)).
    + pose proof (Hd "applied" ltac:(set_solver)) as H1.
      pose proof (Hd "needs_change" ltac:(set_solver)) as H2.
      pose proof (Hd "not_applied" ltac:(set_solver)) as H3.
      pose proof (Hd "error" ltac:(set_solver)) as H4.
      pose proof (Hd "skipped" ltac:(set_solver)) as H5.
      cbv [String.append] in H1, H2, H3, H4, H5. by rewrite H1, H2, H3, H4, H5.
    + repeat constructor; set_solver.
    + eapply Forall_impl; [exact Hvals|]. by intros r [_ ?].
Qed.

End Summary.

(** ** The report *)

Section Report.

Lemma report_bucket_verdict bucket_name r :
  head (report_bucket bucket_name r)
  = Some (bucket_name ++ ": " ++
          (if String.eqb (deny_http_status r) "applied"
              && String.eqb (logging_status r) "enabled"
           then "✓ 成功" else "✗ 一部失敗")).
Proof. reflexivity. Qed.

(** X22. A run restricted to one control never reports a bucket as
    successful: with [--http-only] or [--logging-only] the other control
    has status "skipped", so the bucket's line in the report is the
    partial-failure one even when the control that ran is in place. *)
Theorem single_control_run_reports_no_success self bucket_name w r w' :
  http_only self = true \/ logging_only self = true ->
  apply_baseline_to_bucket self bucket_name w = (Ret r, w') ->
  head (report_bucket bucket_name r) = Some (bucket_name ++ ": ✗ 一部失敗").
Proof.
  intros Hflag Hr. rewrite report_bucket_verdict.
  pose proof (ensures_apply_baseline_to_bucket self bucket_name w r) as Hok.
  rewrite Hr in Hok. destruct (Hok eq_refl) as (_ & _ & Hd & Hl & _).
  destruct Hflag as [Hh|Hlo].
  - apply Hl in Hh. rewrite Hh. by rewrite andb_false_r.
  - apply Hd in Hlo. by rewrite Hlo.
Qed.

End Report.

(** ** The further statements at sample inputs *)

Lemma enable_access_logging_reads_back_witness :
  loggings (snd (enable_access_logging (sample_baseline false) "my-bucket" drifted_account))
    !! "my-bucket" = Some (new_logging_config (sample_baseline false)) /\
  get_logging_status (sample_baseline false) "my-bucket"
    (snd (enable_access_logging (sample_baseline false) "my-bucket" drifted_account))
  = (Ret "enabled",
     log_call (GetBucketLogging "my-bucket")
       (snd (enable_access_logging (sample_baseline false) "my-bucket" drifted_account))).
Proof.
  apply (enable_access_logging_reads_back (sample_baseline false) "my-bucket"
           drifted_account).
  - reflexivity.
  - vm_compute. reflexivity.
  - reflexivity.
Defined.

Lemma enable_access_logging_idempotent_witness :
  read_only
    (snd (enable_access_logging (sample_baseline false) "my-bucket" drifted_account))
    (snd (enable_access_logging (sample_baseline true) "my-bucket"
            (snd (enable_access_logging (sample_baseline false) "my-bucket"
                    drifted_account)))) /\
  match fst (enable_access_logging (sample_baseline true) "my-bucket"
               (snd (enable_access_logging (sample_baseline false) "my-bucket"
                       drifted_account))) with
  | Ret ok => ok = true
  | Raise e => is_ClientError e = false
  end.
Proof.
  apply (enable_access_logging_idempotent (sample_baseline false) (sample_baseline true)
           "my-bucket" drifted_account).
  - reflexivity.
  - vm_compute. reflexivity.
  - reflexivity.
  - reflexivity.
Defined.

Lemma dry_run_enable_access_logging_true_witness :
  match fst (enable_access_logging (sample_baseline true) "my-bucket"
               (sample_account ∅ ∅ (fail_from 0 (ClientError "AccessDenied")))) with
  | Ret ok => ok = true
  | Raise e => is_ClientError e = false
  end.
Proof.
  apply (dry_run_enable_access_logging_true (sample_baseline true) "my-bucket"
           (sample_account ∅ ∅ (fail_from 0 (ClientError "AccessDenied")))).
  reflexivity.
Defined.

Lemma apply_mode_logging_status_witness :
  loggings (snd (apply_baseline_to_bucket (sample_baseline false) "my-bucket"
                   drifted_account)) !! "my-bucket"
  = Some (new_logging_config (sample_baseline false)) /\
  (logging_status {| deny_http := true; deny_http_status := "applied";
                     access_logging := true; logging_status := "enabled" |} = "enabled" \/
   logging_status {| deny_http := true; deny_http_status := "applied";
                     access_logging := true; logging_status := "enabled" |} = "error").
Proof.
  apply (apply_mode_logging_status (sample_baseline false) "my-bucket" drifted_account).
  - reflexivity.
  - reflexivity.
  - vm_compute. reflexivity.
  - reflexivity.
Defined.

Lemma reconcile_rewrites_conservatively_witness :
  "needs_change" = "needs_change" /\
  exists kvs' added,
    policy_of [allow_read_statement; create_deny_http_statement "my-bucket"] = JObj kvs' /\
    (forall k, k <> "Statement" ->
       dict_lookup k kvs'
       = dict_lookup k [ ("Version", JStr "2012-10-17");
                         ("Statement",
                          JList [allow_read_statement; incomplete_statement]) ]) /\
    dict_lookup "Statement" kvs'
    = Some (JList (filter (fun s => is_incomplete_deny s = false)
                     [allow_read_statement; incomplete_statement] ++ added)) /\
    ((added = [] /\
      exists s, s ∈ [allow_read_statement; incomplete_statement] /\ complete_shape s) \/
     (added = [create_deny_http_statement "my-bucket"] /\
      forall s, s ∈ [allow_read_statement; incomplete_statement] -> ~ complete_shape s)).
Proof.
  apply (reconcile_rewrites_conservatively "my-bucket"
           [ ("Version", JStr "2012-10-17");
             ("Statement", JList [allow_read_statement; incomplete_statement]) ]
           [allow_read_statement; incomplete_statement]).
  - reflexivity.
  - reflexivity.
Defined.

Lemma reconcile_applied_iff_witness :
  reconcile "my-bucket"
    (JObj [ ("Version", JStr "2012-10-17");
            ("Statement",
             JList [allow_read_statement; create_deny_http_statement "my-bucket"]) ])
  = Ret AlreadyApplied
  <-> (exists s, s ∈ [allow_read_statement; create_deny_http_statement "my-bucket"] /\
                 complete_shape s) /\
      Forall kept [allow_read_statement; create_deny_http_statement "my-bucket"].
Proof.
  apply (reconcile_applied_iff "my-bucket"
           [ ("Version", JStr "2012-10-17");
             ("Statement",
              JList [allow_read_statement; create_deny_http_statement "my-bucket"]) ]
           [allow_read_statement; create_deny_http_statement "my-bucket"]).
  reflexivity.
Defined.

Lemma log_bucket_provisioned_witness :
  exists w',
    _ensure_log_bucket (sample_baseline false) new_account = (Ret true, w') /\
    buckets w' = ["my-bucket"; "access-logs-123456789012"] /\
    policies w' !! "access-logs-123456789012"
    = Some (log_bucket_policy "access-logs-123456789012" "123456789012") /\
    calls w'
    = [ HeadBucket "access-logs-123456789012";
        CreateBucket "access-logs-123456789012" None;
        PutBucketPolicy "access-logs-123456789012"
          (log_bucket_policy "access-logs-123456789012" "123456789012") ] /\
    forall self',
      faults w' (length (calls w')) = None ->
      apply_deny_http_policy self' "access-logs-123456789012" w'
      = (Ret applied, log_call (GetBucketPolicy "access-logs-123456789012") w').
Proof.
  apply (log_bucket_provisioned (sample_baseline false) new_account).
  - reflexivity.
  - apply (proj1 (bool_decide_eq_false _)). vm_compute. reflexivity.
  - reflexivity.
  - reflexivity.
  - reflexivity.
Defined.

Lemma init_survives_log_bucket_errors_witness :
  exists w',
    __init__ false (Some ["other-bucket"]) false false false false locked_account
    = (Ret {| dry_run := false; exclude_buckets := ["other-bucket"];
              show_policy := false; show_logging := false;
              http_only := false; logging_only := false;
              account_id := "123456789012" |}, w').
Proof.
  apply (init_survives_log_bucket_errors false (Some ["other-bucket"]) false false false
           false locked_account).
  - intros [|n] e; cbn; [discriminate | by intros [= <-]].
  - reflexivity.
Defined.

Lemma main_stops_without_account_id_witness :
  main (sample_args None None)
    (sample_account ∅ ∅ (fail_at 0 (ClientError "ExpiredToken")))
  = (SystemExit 1,
     log_call GetCallerIdentity
       (sample_account ∅ ∅ (fail_at 0 (ClientError "ExpiredToken")))).
Proof.
  apply (main_stops_without_account_id (sample_args None None)
           (sample_account ∅ ∅ (fail_at 0 (ClientError "ExpiredToken")))
           (ClientError "ExpiredToken")).
  - reflexivity.
  - reflexivity.
Defined.

Lemma get_all_buckets_served_witness :
  exists names self',
    get_all_buckets (sample_baseline true) drifted_account
    = (Ret (names, self'), log_call ListBuckets drifted_account) /\
    sublist names (buckets drifted_account) /\
    (forall k, k ∈ names <->
       k ∈ buckets drifted_account /\ (k ∉ exclude_buckets (sample_baseline true)) /\
       k <> log_bucket_name (account_id (sample_baseline true))) /\
    (forall k, k ∈ exclude_buckets self' <->
       k ∈ exclude_buckets (sample_baseline true) \/
       k = log_bucket_name (account_id (sample_baseline true))) /\
    account_id self' = account_id (sample_baseline true) /\
    forall w2,
      faults w2 (length (calls w2)) = None -> buckets w2 = buckets drifted_account ->
      get_all_buckets self' w2 = (Ret (names, self'), log_call ListBuckets w2).
Proof.
  apply (get_all_buckets_served (sample_baseline true) drifted_account).
  reflexivity.
Defined.

Lemma every_enumerated_bucket_has_an_entry_witness :
  exists results self' w',
    apply_baseline_to_all_buckets (sample_baseline true) malformed_account
    = (Ret (results, self'), w') /\
    forall k, is_Some (results !! k) <->
      k ∈ buckets malformed_account /\ (k ∉ exclude_buckets (sample_baseline true)) /\
      k <> log_bucket_name (account_id (sample_baseline true)).
Proof.
  apply (every_enumerated_bucket_has_an_entry (sample_baseline true) malformed_account).
  - intros n. discriminate.
  - reflexivity.
Defined.

Lemma enumerating_run_completes_witness :
  exists results w', main (sample_args None None) locked_account = (Reported results, w').
Proof.
  apply (enumerating_run_completes (sample_args None None) locked_account).
  - intros [|n] e; cbn; [discriminate | by intros [= <-]].
  - reflexivity.
  - reflexivity.
  - reflexivity.
Defined.

Lemma failed_listing_reports_nothing_witness :
  main (sample_args None None) unlistable_account
  = (Reported ∅,
     log_call ListBuckets
       (log_call (HeadBucket "access-logs-123456789012")
          (log_call GetCallerIdentity unlistable_account))).
Proof.
  apply (failed_listing_reports_nothing (sample_args None None) unlistable_account
           (sample_baseline true)
           (log_call (HeadBucket "access-logs-123456789012")
              (log_call GetCallerIdentity unlistable_account))
           "AccessDenied").
  - reflexivity.
  - reflexivity.
  - vm_compute. reflexivity.
  - reflexivity.
Defined.

Lemma explicit_bucket_failure_exits_witness :
  main (with_bucket (Some "my-bucket") (sample_args None None)) malformed_account
  = (SystemExit 1,
     log_call (GetBucketPolicy "my-bucket")
       (log_call (HeadBucket "access-logs-123456789012")
          (log_call GetCallerIdentity malformed_account))).
Proof.
  apply (explicit_bucket_failure_exits (sample_args None None) "my-bucket"
           malformed_account (sample_baseline true)
           (log_call (HeadBucket "access-logs-123456789012")
              (log_call GetCallerIdentity malformed_account))
           [ ("Version", JStr "2012-10-17");
             ("Statement", JList [allow_read_statement; malformed_statement]) ]
           [allow_read_statement; malformed_statement] malformed_statement).
  - reflexivity.
  - reflexivity.
  - discriminate.
  - vm_compute. reflexivity.
  - reflexivity.
  - vm_compute. reflexivity.
  - reflexivity.
  - right. left.
  - eexists _, (JStr "aws:SecureTransport").
    split; [reflexivity|]. split; [reflexivity|]. split; [reflexivity|].
    left. reflexivity.
Defined.

Lemma main_without_apply_writes_nothing_witness :
  buckets (snd (main (sample_args None None) drifted_account)) = buckets drifted_account /\
  policies (snd (main (sample_args None None) drifted_account))
  = policies drifted_account /\
  loggings (snd (main (sample_args None None) drifted_account))
  = loggings drifted_account /\
  exists cs,
    calls (snd (main (sample_args None None) drifted_account))
    = (calls drifted_account ++ cs)%list /\
    Forall (fun c => is_write c = false) cs.
Proof.
  apply (main_without_apply_writes_nothing (sample_args None None) drifted_account).
  reflexivity.
Defined.

Lemma batch_summary_adds_up_witness :
  item (generate_summary batch_results) "total" = size batch_results /\
  item (generate_summary batch_results) "logging_enabled"
  + item (generate_summary batch_results) "logging_enabled_other"
  + item (generate_summary batch_results) "logging_disabled"
  + item (generate_summary batch_results) "logging_error"
  + item (generate_summary batch_results) "logging_skipped" = size batch_results /\
  item (generate_summary batch_results) "deny_http_applied"
  + item (generate_summary batch_results) "deny_http_needs_change"
  + item (generate_summary batch_results) "deny_http_not_applied"
  + item (generate_summary batch_results) "deny_http_error"
  + item (generate_summary batch_results) "deny_http_skipped" = size batch_results.
Proof.
  apply (batch_summary_adds_up (sample_baseline true) malformed_account batch_results
           enumerating_baseline
           (snd (apply_baseline_to_all_buckets (sample_baseline true) malformed_account))).
  vm_compute. reflexivity.
Defined.

(** The summary of that run, key by key. *)
Example batch_summary :
  map (fun k => (k, item (generate_summary batch_results) k)) summary_keys
  = [ ("total", 2);
      ("logging_enabled", 0); ("logging_enabled_other", 0);
      ("logging_disabled", 1); ("logging_error", 1); ("logging_skipped", 0);
      ("deny_http_applied", 0); ("deny_http_needs_change", 0);
      ("deny_http_not_applied", 1); ("deny_http_error", 1);
      ("deny_http_skipped", 0) ].
Proof. vm_compute. reflexivity. Qed.

Lemma single_control_run_reports_no_success_witness :
  head (report_bucket "my-bucket"
          {| deny_http := true; deny_http_status := "applied";
             access_logging := false; logging_status := "skipped" |})
  = Some ("my-bucket" ++ ": ✗ 一部失敗").
Proof.
  apply (single_control_run_reports_no_success (sample_http_only false) "my-bucket"
           drifted_account
           {| deny_http := true; deny_http_status := "applied";
              access_logging := false; logging_status := "skipped" |}
           (snd (apply_baseline_to_bucket (sample_http_only false) "my-bucket"
                   drifted_account))).
  - left. reflexivity.
  - vm_compute. reflexivity.
Defined.

(** The report of the dry run on the drifted bucket. *)
Example dry_run_report :
  generate_report
    [ ("my-bucket",
       {| deny_http := false; deny_http_status := "needs_change";
          access_logging := true; logging_status := "enabled_other" |}) ]
  = [ rule; "処理結果レポート"; rule;
      "my-bucket: ✗ 一部失敗";
      "  - HTTP拒否ポリシー: ⚠ 要設定変更";
      "  - アクセスログ: ⚠ 要設定変更（別の出力先）";
      rule; "サマリ"; rule;
      "対象バケット総数: 1"; ""; "【アクセスログ】";
      "  ✓ 対応済み:         0 バケット";
      "  ⚠ 要設定変更:       1 バケット";
      "  ✗ 未対応:           0 バケット";
      ""; "【HTTP拒否ポリシー】";
      "  ✓ 適用済み:         0 バケット";
      "  ⚠ 要設定変更:       1 バケット";
      "  ✗ 未適用:           0 バケット";
      rule ].
Proof. vm_compute. reflexivity. Qed.
